(** * AWS fact modules: [ec2_group_facts] and [iam_user_facts]

    A shallow embedding of the two Ansible modules
    [cloud/amazon/ec2_group_facts.py] and [cloud/amazon/iam_user_facts.py].

    The AWS SDK (boto / boto3) is an external collaborator.  Every SDK call
    is a function on an abstract provider world [W]: it consumes the world,
    answers with either a provider exception or a value, and hands back the
    next world.  Python's [try: ... except E as e: module.fail_json(...)]
    becomes a handler that turns the exception into a structured failure;
    a call that is not wrapped lets the exception escape. *)

From stdpp Require Import base option list strings gmap.

Open Scope string_scope.
Open Scope list_scope.

(** ** Computations that thread a state and may stop with an error *)

Definition run (S E A : Type) : Type := S → (E + A) * S.

Global Instance run_ret {S E} : MRet (run S E) := λ A a s, (inr a, s).

Global Instance run_bind {S E} : MBind (run S E) := λ A B k m s,
  match m s with
  | (inl e, s') => (inl e, s')
  | (inr a, s') => k a s'
  end.

(** [try: x = call() except X as e: handler(e)], where the handler stops the
    program with the failure [handler e]. *)
Definition try_except {S E X A} (call : S → (X + A) * S) (handler : X → E)
  : run S E A :=
  λ s, match call s with
       | (inl x, s') => (inl (handler x), s')
       | (inr a, s') => (inr a, s')
       end.

(** Python truthiness of an optional string ([None] and [''] are falsy). *)
Definition truthy (s : option string) : bool :=
  match s with
  | Some s => negb (bool_decide (s = ""))
  | None => false
  end.

(** * ec2_group_facts *)

Module Ec2GroupFacts.

(** ** Data as boto hands it over *)

(** [boto.exception.BotoServerError], with the three attributes the module
    reads. *)
Record BotoServerError := {
  error_code : string;
  error_message : string;
  message : string
}.

(** What [connect_to_aws] raises: [boto.exception.NoAuthHandlerFound] or
    [AnsibleAWSError].  Both are plain exceptions that carry a text and have
    neither an [error_code] nor an [error_message] attribute. *)
Inductive ConnectError :=
  | NoAuthHandlerFound (text : string)
  | AnsibleAWSError (text : string).

(** What a [try] block that first connects and then lists can raise. *)
Inductive BlockError :=
  | server_error (e : BotoServerError)
  | connect_error (e : ConnectError).

(** A grant of a permission entry ([boto.ec2.securitygroup.GroupOrCIDR]). *)
Record GroupOrCIDR := {
  group_id : option string;
  cidr_ip : option string
}.

(** A permission entry ([boto.ec2.securitygroup.IPPermissions]); the RETURN
    block of the module documents the ports as strings. *)
Record IPPermissions := {
  ip_protocol : string;
  from_port : option string;
  to_port : option string;
  grants : list GroupOrCIDR
}.

Record SecurityGroup := {
  id : string;
  name : string;
  description : string;
  vpc_id : option string;
  rules : list IPPermissions;
  rules_egress : list IPPermissions
}.

Record Instance := { instance_id : string }.

Record LoadBalancer := {
  elb_name : string;
  security_groups : list string
}.

Record NetworkInterface := { eni_id : string }.

Record VPCSecurityGroupMembership := { vpc_group : string }.

Record DBInstance := {
  rds_id : string;
  vpc_security_groups : list VPCSecurityGroupMembership
}.

(** ** Data the module returns *)

(** The dict built per permission entry, keys [ip_protocol], [from_port],
    [to_port] and [grants]. *)
Record permission := {
  perm_ip_protocol : string;
  perm_from_port : option string;
  perm_to_port : option string;
  perm_grants : list string
}.

(** The dict [group_info]; [resources] is a dict from kind to identifiers. *)
Record group_info := {
  info_id : string;
  info_name : string;
  info_description : string;
  info_vpc_id : option string;
  info_rules : list permission;
  info_rules_egress : list permission;
  info_resources : gmap string (list string)
}.

(** How the module can stop without producing its result:
    [module.fail_json(msg=...)]; a provider exception nobody caught; a
    connection exception that the [except BotoServerError] clause around it
    does not catch; or the [AttributeError] raised inside the handler of
    [main], which reads [e.error_code] of a connection exception. *)
Inductive failure :=
  | fail_json (msg : string)
  | unhandled (e : BotoServerError)
  | unhandled_connect (e : ConnectError)
  | attribute_error (e : ConnectError).

(** ** The inventory provider

    One field per boto call the module makes.  Where the module opens a
    connection inside the same [try] block ([connect_to_aws]), the field
    stands for the whole block, which can raise what the call raises and
    what connecting raises. *)

Record Provider (W : Type) := {
  get_all_security_groups :
    option (gmap string string) → W → (BotoServerError + list SecurityGroup) * W;
  instances : SecurityGroup → W → (BotoServerError + list Instance) * W;
  get_all_load_balancers : W → (BlockError + list LoadBalancer) * W;
  get_all_network_interfaces :
    gmap string string → W → (BlockError + list NetworkInterface) * W;
  get_all_dbinstances : W → (BlockError + list DBInstance) * W
}.
Arguments get_all_security_groups {W}.
Arguments instances {W}.
Arguments get_all_load_balancers {W}.
Arguments get_all_network_interfaces {W}.
Arguments get_all_dbinstances {W}.

(** ** get_group_rules *)

(** Body of the inner loop [for grant in rule.grants]. *)
Definition append_grant (grants : list string) (grant : GroupOrCIDR)
  : list string :=
  match group_id grant with
  | Some gid => grants ++ [gid]
  | None =>
      match cidr_ip grant with
      | Some cidr => grants ++ [cidr]
      | None => grants
      end
  end.

(** The inner loop, started from [grants = []]. *)
Definition flatten_grants (rule_grants : list GroupOrCIDR) : list string :=
  foldl append_grant [] rule_grants.

(** Body of the outer loop [for rule in PermissionList]. *)
Definition append_rule (rules : list permission) (rule : IPPermissions)
  : list permission :=
  let grants := flatten_grants (grants rule) in
  rules ++ [ {| perm_ip_protocol := ip_protocol rule;
                perm_from_port := from_port rule;
                perm_to_port := to_port rule;
                perm_grants := grants |} ].

Definition get_group_rules (PermissionList : list IPPermissions)
  : list permission :=
  foldl append_rule [] PermissionList.

(** The grant string of one grant entry in the specification's words: the
    referenced group identifier if present, otherwise the CIDR string if
    present, otherwise nothing.  Only used to state properties. *)
Definition flattened_grant (grant : GroupOrCIDR) : option string :=
  match group_id grant with
  | Some gid => Some gid
  | None => cidr_ip grant
  end.

(** The rule record the specification asks for one permission entry. *)
Definition rule_record (rule : IPPermissions) : permission :=
  {| perm_ip_protocol := ip_protocol rule;
     perm_from_port := from_port rule;
     perm_to_port := to_port rule;
     perm_grants := omap flattened_grant (grants rule) |}.

(** ** The four association lookups *)

(** ["%s: %s" % (e.error_code, e.error_message)] *)
Definition code_and_message (e : BotoServerError) : string :=
  error_code e +:+ ": " +:+ error_message e.

(** [except BotoServerError as e: handler e] around a block: a connection
    exception is not caught and goes on upwards. *)
Definition except_BotoServerError (handler : BotoServerError → failure)
    (raised : BlockError) : failure :=
  match raised with
  | server_error e => handler e
  | connect_error e => unhandled_connect e
  end.

Section resolver.
Context {W : Type} (aws : Provider W).

Definition get_rds_instances (group : SecurityGroup)
  : run W failure (list string) :=
  all_rds ← try_except (get_all_dbinstances aws)
               (except_BotoServerError (λ e, fail_json (code_and_message e)));
  mret
    (foldl (λ rds_instances rds,
              foldl (λ rds_instances membership,
                       if bool_decide (id group = vpc_group membership)
                       then rds_instances ++ [rds_id rds]
                       else rds_instances)
                    rds_instances (vpc_security_groups rds))
           [] all_rds).

Definition get_network_interfaces (group : SecurityGroup)
  : run W failure (list string) :=
  all_enis ← try_except
                (get_all_network_interfaces aws {[ "group-id" := id group ]})
                (except_BotoServerError (λ e, fail_json (code_and_message e)));
  mret (foldl (λ network_interfaces eni, network_interfaces ++ [eni_id eni])
              [] all_enis).

Definition get_associated_loadbalancers (group : SecurityGroup)
  : run W failure (list string) :=
  all_elbs ← try_except (get_all_load_balancers aws)
                (except_BotoServerError (λ e, fail_json (code_and_message e)));
  mret (foldl (λ associated_loadbalancers elb,
                 if bool_decide (id group ∈ security_groups elb)
                 then associated_loadbalancers ++ [elb_name elb]
                 else associated_loadbalancers)
              [] all_elbs).

(** [group.instances()] is called outside any [try]. *)
Definition get_associated_instances (group : SecurityGroup)
  : run W failure (list string) :=
  associated_instances ← try_except (instances aws group) unhandled;
  mret (foldl (λ instances instance, instances ++ [instance_id instance])
              [] associated_instances).

(** [any(x in lookup for x in [kind, 'all'])] *)
Definition requested (lookup : list string) (kind : string) : bool :=
  existsb (λ x, bool_decide (x ∈ lookup)) [kind; "all"].

Definition get_group_info (lookup : list string) (group : SecurityGroup)
  : run W failure group_info :=
  let rules := get_group_rules (rules group) in
  let rules_egress := get_group_rules (rules_egress group) in
  let resources : gmap string (list string) := ∅ in
  ec2 ← (if requested lookup "ec2"
         then get_associated_instances group else mret []);
  let resources := <[ "ec2" := ec2 ]> resources in
  elb ← (if requested lookup "elb"
         then get_associated_loadbalancers group else mret []);
  let resources := <[ "elb" := elb ]> resources in
  eni ← (if requested lookup "eni"
         then get_network_interfaces group else mret []);
  let resources := <[ "eni" := eni ]> resources in
  rds ← (if requested lookup "rds"
         then get_rds_instances group else mret []);
  let resources := <[ "rds" := rds ]> resources in
  mret {| info_id := id group;
          info_name := name group;
          info_description := description group;
          info_vpc_id := vpc_id group;
          info_rules := rules;
          info_rules_egress := rules_egress;
          info_resources := resources |}.

(** The loop [for group in all_groups: group_dict_array.append(...)]. *)
Fixpoint list_group_loop (lookup : list string)
    (all_groups : list SecurityGroup) (group_dict_array : list group_info)
  : run W failure (list group_info) :=
  match all_groups with
  | [] => mret group_dict_array
  | group :: rest =>
      info ← get_group_info lookup group;
      list_group_loop lookup rest (group_dict_array ++ [info])
  end.

(** [list_group]: a right result is [module.exit_json(groups=...)]. *)
Definition list_group (filters : option (gmap string string))
    (lookup : list string) : run W failure (list group_info) :=
  all_groups ← try_except (get_all_security_groups aws filters)
                  (λ e, fail_json (message e));
  list_group_loop lookup all_groups [].
End resolver.

(** ** main *)

(** [main].  [region] is what [get_aws_connection_info] resolved, [filters]
    and [lookup] are the options as the playbook gives them ([None] when
    absent; the argument spec defaults [lookup] to the empty list), and
    [connect_to_aws] answers with the connection [list_group] works on.  The
    handler of the connection exceptions formats [e.error_code] and
    [e.error_message], attributes these exceptions do not have: evaluating the
    message raises [AttributeError] before [fail_json] is reached. *)
Definition main {W : Type} (HAS_BOTO : bool) (region : option string)
    (connect_to_aws : option string → ConnectError + Provider W)
    (filters : option (gmap string string)) (lookup : option (list string))
  : run W failure (list group_info) :=
  let lookup := match lookup with Some l => l | None => [] end in
  if negb HAS_BOTO
  then λ w, (inl (fail_json "boto required for this module"), w)
  else
    if truthy region
    then
      match connect_to_aws region with
      | inl e => λ w, (inl (attribute_error e), w)
      | inr connection => list_group connection filters lookup
      end
    else λ w, (inl (fail_json "region must be specified"), w).

End Ec2GroupFacts.

(** * iam_user_facts *)

Module IamUserFacts.

(** ** Data as boto3 hands it over *)

(** Values of the keyword arguments collected in the dict [params]. *)
Inductive value :=
  | VNone
  | VStr (s : string)
  | VInt (n : Z).

Global Instance value_eq_dec : EqDecision value.
Proof. solve_decision. Defined.

(** The module parameter [name] stored under a key of [params]. *)
Definition of_param (p : option string) : value :=
  match p with
  | Some s => VStr s
  | None => VNone
  end.

(** A user dict of [get_user] / [list_users]. *)
Record User := {
  UserName : string;
  UserId : string;
  Path : string;
  Arn : string;
  CreateDate : string;
  PasswordLastUsed : option string
}.

(** The [response] dict of a botocore error: provider code and message. *)
Record Response := {
  Code : string;
  Message : string
}.

(** [botocore.exceptions.ClientError]: the service rejected the call. *)
Record ClientError := {
  message : string;
  response : Response
}.

(** [botocore.exceptions.ParamValidationError]: the keyword arguments were
    rejected before any request was sent.  It has a message and no
    [response] attribute. *)
Record ParamValidationError := {
  report : string
}.

(** What [except (ClientError, ParamValidationError) as e] binds. *)
Inductive BotoError :=
  | client_error (e : ClientError)
  | param_validation_error (e : ParamValidationError).

(** ** Data the module returns *)

Record user_facts := {
  user_name : string;
  user_id : string;
  path : string;
  arn : string;
  create_date : string;
  password_last_used : option string
}.

Record response_facts := {
  code : string;
  error_text : string
}.

(** [camel_dict_to_snake_dict] renames keys and keeps values; it is one
    Python function used at two dict shapes. *)
Class CamelToSnake (A B : Type) := camel_dict_to_snake_dict : A → B.

(** Modelled from the spec: [camel_dict_to_snake_dict] lives in
    [ansible.module_utils.ec2]; each user record carries identifier, name,
    path, ARN, creation timestamp and optional last-password-use timestamp
    under flat lower-snake keys. *)
Global Instance user_to_snake : CamelToSnake User user_facts := λ user,
  {| user_name := UserName user;
     user_id := UserId user;
     path := Path user;
     arn := Arn user;
     create_date := CreateDate user;
     password_last_used := PasswordLastUsed user |}.

(** Modelled from the spec: the same helper on an error response keeps the
    provider's code and message. *)
Global Instance response_to_snake : CamelToSnake Response response_facts :=
  λ r, {| code := Code r; error_text := Message r |}.

(** How the module can stop without producing its result:
    [module.fail_json(msg=..., **kwargs)], or the [AttributeError] raised
    inside an exception handler that reads [e.response] of a
    [ParamValidationError]. *)
Inductive failure :=
  | fail_json (msg : string) (kwargs : option response_facts)
  | attribute_error (e : ParamValidationError).

(** ** The IAM client *)

Record Connection (W : Type) := {
  get_user : gmap string value → W → (BotoError + User) * W;
  list_users : gmap string value → W → (BotoError + list User) * W
}.
Arguments get_user {W}.
Arguments list_users {W}.

(** Provider calls in the order they were issued. *)
Inductive call :=
  | get_user_call (kwargs : gmap string value)
  | list_users_call (kwargs : gmap string value).

Section lookup.
Context {W : Type} (connection : Connection W).

(** The program state: the provider world and the calls issued so far. *)
Definition issue {X A} (c : call) (op : W → (X + A) * W)
  : W * list call → (X + A) * (W * list call) :=
  λ '(w, log), let '(r, w') := op w in (r, (w', log ++ [c])).

(** The handler
    [module.fail_json(msg=e.message, **camel_dict_to_snake_dict(e.response))]:
    for a [ParamValidationError] the keyword arguments cannot be built, and
    the [AttributeError] escapes before [fail_json] is called. *)
Definition provider_failure (raised : BotoError) : failure :=
  match raised with
  | client_error e =>
      fail_json (message e) (Some (camel_dict_to_snake_dict (response e)))
  | param_validation_error e => attribute_error e
  end.

Definition list_iam_users (name path : option string)
  : run (W * list call) failure (list user_facts) :=
  let params : gmap string value := ∅ in
  let iam_users : list User := [] in
  '(params, iam_users) ←
    (if truthy name && negb (truthy path) then
       let params := <[ "UserName" := of_param name ]> params in
       user ← try_except
                 (issue (get_user_call params) (get_user connection params))
                 provider_failure;
       mret (params, iam_users ++ [user])
     else mret (params, iam_users));
  let params :=
    if truthy path
    then <[ "PathPrefix" := of_param path ]> (<[ "MaxItems" := VInt 1000 ]> params)
    else params in
  iam_users ← try_except
                 (issue (list_users_call params) (list_users connection params))
                 provider_failure;
  let iam_users :=
    if truthy name
    then filter (λ user, Some (UserName user) = name) iam_users
    else iam_users in
  mret (camel_dict_to_snake_dict <$> iam_users).

(** [main]: [name] and [path] are the options as the playbook gives them
    ([None] when absent); the argument spec fills in [path]'s default.  The
    client that [boto3_conn] hands over is the [connection] at hand. *)
Definition main (HAS_BOTO3 : bool) (name path : option string)
  : run (W * list call) failure (list user_facts) :=
  let path := match path with Some p => Some p | None => Some "/" end in
  if negb HAS_BOTO3
  then λ s, (inl (fail_json "boto3 required for this module" None), s)
  else list_iam_users name path.
End lookup.

End IamUserFacts.

(** * Concrete inventories used to exercise the statements *)

Module Ec2Demo.
Import Ec2GroupFacts.

Definition sg (gid : string) : SecurityGroup :=
  {| id := gid; name := "web"; description := "web tier";
     vpc_id := Some "vpc-12ca6e4";
     rules := [ {| ip_protocol := "tcp"; from_port := Some "80";
                   to_port := Some "80";
                   grants := [ {| group_id := None; cidr_ip := Some "0.0.0.0/0" |} ] |} ];
     rules_egress := [] |}.

Definition auth_failure : BotoServerError :=
  {| error_code := "AuthFailure";
     error_message := "not authorized";
     message := "not authorized" |}.

(** The provider world is the number of calls answered so far; [broken]
    tells which call of which kind is answered with [auth_failure]. *)
Definition answer {A} (broken : nat → bool) (a : A)
  : nat → (BotoServerError + A) * nat :=
  λ n, (if broken n then inl auth_failure else inr a, S n).

(** Two database instances; the first lists the membership in [sg-1]
    twice. *)
Definition db_inventory : list DBInstance :=
  [ {| rds_id := "test-rds-mysql";
       vpc_security_groups := [ {| vpc_group := "sg-1" |};
                                {| vpc_group := "sg-1" |} ] |};
    {| rds_id := "orders-db";
       vpc_security_groups := [ {| vpc_group := "sg-2" |} ] |} ].

(** The same for a block that connects first; [raised] is what a broken
    block raises. *)
Definition answer_block {A} (raised : BlockError) (broken : nat → bool) (a : A)
  : nat → (BlockError + A) * nat :=
  λ n, (if broken n then inl raised else inr a, S n).

Definition aws_raising (raised : BlockError) (broken : string → nat → bool)
  : Provider nat :=
  {| get_all_security_groups := λ _,
       answer (broken "groups") [sg "sg-1"; sg "sg-2"; sg "sg-3"];
     instances := λ group,
       answer (broken "ec2")
         (if bool_decide (id group = "sg-1")
          then [ {| instance_id := "i-52a644e3" |}; {| instance_id := "i-12df34be" |} ]
          else []);
     get_all_load_balancers :=
       answer_block raised (broken "elb")
         [ {| elb_name := "staging-web-elb01"; security_groups := ["sg-1"; "sg-2"] |};
           {| elb_name := "internal-elb"; security_groups := ["sg-3"] |} ];
     get_all_network_interfaces := λ filters,
       answer_block raised (broken "eni")
         (if bool_decide (filters !! "group-id" = Some "sg-1")
          then [ {| eni_id := "eni-1" |} ] else []);
     get_all_dbinstances := answer_block raised (broken "rds") db_inventory |}.

(** The provider whose broken calls raise [auth_failure]. *)
Definition aws (broken : string → nat → bool) : Provider nat :=
  aws_raising (server_error auth_failure) broken.

Definition no_credentials : ConnectError := NoAuthHandlerFound "no credentials".

Definition healthy : string → nat → bool := λ _ _, false.

(** Every call of the given kind fails. *)
Definition down (kind : string) : string → nat → bool :=
  λ k _, bool_decide (k = kind).

(** Only the call numbered [n] fails, if it is of the given kind. *)
Definition down_at (kind : string) (n : nat) : string → nat → bool :=
  λ k m, bool_decide (k = kind) && bool_decide (m = n).

(** What resolving [sg-1] yields for a lookup spec, given the four lists. *)
Definition info_of (gid : string) (ec2 elb eni rds : list string) : group_info :=
  {| info_id := gid; info_name := "web"; info_description := "web tier";
     info_vpc_id := Some "vpc-12ca6e4";
     info_rules := [ {| perm_ip_protocol := "tcp"; perm_from_port := Some "80";
                        perm_to_port := Some "80";
                        perm_grants := ["0.0.0.0/0"] |} ];
     info_rules_egress := [];
     info_resources :=
       <[ "rds" := rds ]> (<[ "eni" := eni ]>
         (<[ "elb" := elb ]> (<[ "ec2" := ec2 ]> ∅))) |}.

(** A rule whose grants are a CIDR, an empty entry and an entry with both a
    group and a CIDR. *)
Definition mixed_rule : IPPermissions :=
  {| ip_protocol := "tcp"; from_port := Some "80"; to_port := Some "80";
     grants := [ {| group_id := None; cidr_ip := Some "193.43.18.0/24" |};
                 {| group_id := None; cidr_ip := None |};
                 {| group_id := Some "sg-29c9c44f"; cidr_ip := Some "10.0.0.0/8" |} ] |}.

(** A rule all of whose grants name a group or a CIDR. *)
Definition full_rule : IPPermissions :=
  {| ip_protocol := "udp"; from_port := Some "53"; to_port := Some "53";
     grants := [ {| group_id := None; cidr_ip := Some "0.0.0.0/0" |};
                 {| group_id := Some "sg-1"; cidr_ip := None |} ] |}.

(** [connect_to_aws] that raises. *)
Definition refused : option string → ConnectError + Provider nat :=
  λ _, inl no_credentials.

(** [connect_to_aws] that hands out the given provider. *)
Definition connected (broken : string → nat → bool)
  : option string → ConnectError + Provider nat :=
  λ _, inr (aws broken).

End Ec2Demo.

Module IamDemo.
Import IamUserFacts.

Definition alice : User :=
  {| UserName := "alice"; UserId := "AIDA1"; Path := "/";
     Arn := "arn:aws:iam::156360693172:user/alice";
     CreateDate := "2016-05-24T12:24:59+00:00"; PasswordLastUsed := None |}.

Definition bob : User :=
  {| UserName := "bob"; UserId := "AIDA2"; Path := "/";
     Arn := "arn:aws:iam::156360693172:user/bob";
     CreateDate := "2016-05-25T13:39:11+00:00";
     PasswordLastUsed := Some "2016-05-26T08:00:00+00:00" |}.

Definition no_such_entity : ClientError :=
  {| message := "The user with name bob cannot be found.";
     response := {| Code := "NoSuchEntity";
                    Message := "The user with name bob cannot be found." |} |}.

(** An IAM client over a trivial world; [get_user] answers as told. *)
Definition iam (get_user_answer : ClientError + User) : Connection unit :=
  {| get_user := λ _ w,
       (match get_user_answer with
        | inl e => inl (client_error e)
        | inr user => inr user
        end, w);
     list_users := λ _ w, (inr [alice; bob], w) |}.

Definition throttled : ClientError :=
  {| message := "Rate exceeded";
     response := {| Code := "Throttling"; Message := "Rate exceeded" |} |}.

(** An IAM client whose [list_users] is throttled. *)
Definition iam_throttled : Connection unit :=
  {| get_user := λ _ w, (inr bob, w);
     list_users := λ _ w, (inl (client_error throttled), w) |}.

(** An IAM client that checks keyword arguments as boto3 does for these two
    operations: [list_users] takes no [UserName]. *)
Definition unknown_parameter : ParamValidationError :=
  {| report := "Unknown parameter in input: UserName" |}.

Definition iam_validating : Connection unit :=
  {| get_user := λ _ w, (inr bob, w);
     list_users := λ kwargs w,
       (match kwargs !! "UserName" with
        | Some _ => inl (param_validation_error unknown_parameter)
        | None => inr [alice; bob]
        end, w) |}.
End IamDemo.

(** * Properties of ec2_group_facts *)

Module Ec2GroupFactsSpec.
Import Ec2GroupFacts.

(** ** Loops that append are order-preserving maps *)

(** A loop whose body appends a chunk that depends on the element only. *)
Lemma foldl_append_chunks {A B} (chunk : A → list B) (l : list A) (acc : list B) :
  foldl (λ acc x, acc ++ chunk x) acc l = acc ++ (l ≫= chunk).
Proof.
  revert acc. induction l as [|x l IH]; intros acc; simpl.
  - by rewrite app_nil_r.
  - rewrite IH. by rewrite <- app_assoc.
Qed.

Lemma foldl_append_grant gs acc :
  foldl append_grant acc gs = acc ++ omap flattened_grant gs.
Proof.
  revert acc. induction gs as [|g gs IH]; intros acc; simpl.
  - by rewrite app_nil_r.
  - rewrite IH. unfold append_grant, flattened_grant.
    destruct (group_id g) as [gid|]; simpl.
    + by rewrite <- app_assoc.
    + destruct (cidr_ip g); simpl; [|done]. by rewrite <- app_assoc.
Qed.

Lemma flatten_grants_omap gs : flatten_grants gs = omap flattened_grant gs.
Proof. unfold flatten_grants. by rewrite foldl_append_grant. Qed.

Lemma flatten_grants_app gs1 gs2 :
  flatten_grants (gs1 ++ gs2) = flatten_grants gs1 ++ flatten_grants gs2.
Proof. rewrite !flatten_grants_omap. apply omap_app. Qed.

Lemma append_rule_record acc rule : append_rule acc rule = acc ++ [rule_record rule].
Proof. unfold append_rule, rule_record. by rewrite flatten_grants_omap. Qed.

Lemma foldl_append_rule l acc :
  foldl append_rule acc l = acc ++ (rule_record <$> l).
Proof.
  revert acc. induction l as [|r l IH]; intros acc; simpl.
  - by rewrite app_nil_r.
  - rewrite IH, append_rule_record. by rewrite <- app_assoc.
Qed.

Lemma get_group_rules_map l : get_group_rules l = rule_record <$> l.
Proof. unfold get_group_rules. by rewrite foldl_append_rule. Qed.

(** C5: [get_group_rules] returns as many rule records as there are
    permission entries, and the record at each position carries the
    protocol, from-port and to-port of the entry at that position, with the
    grant strings in the order of that entry's grant entries. *)
Theorem get_group_rules_preserves_entries (PermissionList : list IPPermissions) :
  length (get_group_rules PermissionList) = length PermissionList ∧
  ∀ i : nat,
    get_group_rules PermissionList !! i =
    (λ rule, {| perm_ip_protocol := ip_protocol rule;
                perm_from_port := from_port rule;
                perm_to_port := to_port rule;
                perm_grants := omap flattened_grant (grants rule) |})
      <$> PermissionList !! i.
Proof.
  rewrite get_group_rules_map. split.
  - apply length_fmap.
  - intros i. apply list_lookup_fmap.
Qed.

(** The rule record at the position of a rule in the middle of a list. *)
Lemma get_group_rules_middle (rules_before rules_after : list IPPermissions)
    (rule : IPPermissions) :
  get_group_rules (rules_before ++ rule :: rules_after) !! length rules_before =
  Some (rule_record rule).
Proof.
  rewrite get_group_rules_map, list_lookup_fmap.
  by rewrite list_lookup_middle.
Qed.

(** C6: whatever rule a grant entry sits in, and wherever in its grant list,
    the rule record that [get_group_rules] builds for that rule lists, at the
    entry's place, exactly its group identifier, or exactly its CIDR string
    when it has no group identifier, or nothing when it has neither; the
    entries before and after it are flattened in order around it, and a
    record is produced in every case. *)
Theorem grant_contributes_one_reference
    (rules_before rules_after : list IPPermissions)
    (protocol : string) (from to : option string)
    (before after : list GroupOrCIDR) (grant : GroupOrCIDR) :
  get_group_rules
    (rules_before
       ++ {| ip_protocol := protocol; from_port := from; to_port := to;
             grants := before ++ grant :: after |}
       :: rules_after) !! length rules_before =
  Some {| perm_ip_protocol := protocol;
          perm_from_port := from;
          perm_to_port := to;
          perm_grants :=
            omap flattened_grant before
              ++ match group_id grant, cidr_ip grant with
                 | Some gid, _ => [gid]
                 | None, Some cidr => [cidr]
                 | None, None => []
                 end
              ++ omap flattened_grant after |}.
Proof.
  rewrite get_group_rules_middle. unfold rule_record. simpl.
  rewrite omap_app. csimpl. unfold flattened_grant at 2.
  destruct (group_id grant); [done|]. by destruct (cidr_ip grant).
Qed.

(** C10: whatever rule it sits in, and wherever in its grant list, a grant
    entry that carries both a group identifier and a CIDR string puts the
    group identifier alone into the rule record that [get_group_rules]
    builds; the CIDR string is dropped. *)
Theorem group_reference_takes_precedence
    (rules_before rules_after : list IPPermissions)
    (protocol : string) (from to : option string)
    (before after : list GroupOrCIDR) (gid cidr : string) :
  get_group_rules
    (rules_before
       ++ {| ip_protocol := protocol; from_port := from; to_port := to;
             grants := before
                         ++ {| group_id := Some gid; cidr_ip := Some cidr |}
                         :: after |}
       :: rules_after) !! length rules_before =
  Some {| perm_ip_protocol := protocol;
          perm_from_port := from;
          perm_to_port := to;
          perm_grants :=
            omap flattened_grant before ++ [gid] ++ omap flattened_grant after |}.
Proof.
  rewrite get_group_rules_middle. unfold rule_record. simpl.
  by rewrite omap_app.
Qed.

Example get_group_rules_sample :
  get_group_rules
    [ {| ip_protocol := "tcp"; from_port := Some "80"; to_port := Some "80";
         grants := [ {| group_id := None; cidr_ip := Some "193.43.18.0/24" |};
                     {| group_id := None; cidr_ip := None |};
                     {| group_id := Some "sg-29c9c44f"; cidr_ip := Some "10.0.0.0/8" |} ] |} ] =
    [ {| perm_ip_protocol := "tcp"; perm_from_port := Some "80";
         perm_to_port := Some "80";
         perm_grants := ["193.43.18.0/24"; "sg-29c9c44f"] |} ].
Proof. reflexivity. Qed.

Lemma bind_singleton {A B} (f : A → B) (l : list A) :
  l ≫= (λ x, [f x]) = f <$> l.
Proof. induction l as [|x l IH]; [done|]. csimpl. by rewrite IH. Qed.

(** ** Running the lookups *)

Section resolver_facts.
Context {W : Type} (aws : Provider W).

Lemma bind_run {S E A B} (m : run S E A) (k : A → run S E B) (s : S) :
  (m ≫= k) s = match m s with
               | (inl e, s') => (inl e, s')
               | (inr a, s') => k a s'
               end.
Proof. reflexivity. Qed.

Lemma bind_inr {S E A B} (m : run S E A) (k : A → run S E B) s b s2 :
  (m ≫= k) s = (inr b, s2) ↔ ∃ a s1, m s = (inr a, s1) ∧ k a s1 = (inr b, s2).
Proof.
  rewrite bind_run. destruct (m s) as [[e|a] s1]; split.
  - discriminate.
  - intros (? & ? & [=] & _).
  - eauto.
  - by intros (? & ? & [= <- <-] & ?).
Qed.

Lemma bind_inl {S E A B} (m : run S E A) (k : A → run S E B) s e s1 :
  m s = (inl e, s1) → (m ≫= k) s = (inl e, s1).
Proof. intros Hm. by rewrite bind_run, Hm. Qed.

Lemma bind_step {S E A B} (m : run S E A) (k : A → run S E B) s a s1 :
  m s = (inr a, s1) → (m ≫= k) s = k a s1.
Proof. intros Hm. by rewrite bind_run, Hm. Qed.

(** The identifiers collected by the two nested loops of
    [get_rds_instances]. *)
Lemma rds_inner_loop (gid x : string) ms acc :
  foldl (λ rds_instances membership,
           if bool_decide (gid = vpc_group membership)
           then rds_instances ++ [x] else rds_instances) acc ms
  = acc ++ ((λ _, x) <$> filter (λ m, gid = vpc_group m) ms).
Proof.
  revert acc. induction ms as [|m ms IH]; intros acc; simpl.
  - by rewrite app_nil_r.
  - rewrite IH, filter_cons. case_bool_decide; case_decide; try done.
    simpl. by rewrite <- app_assoc.
Qed.

Lemma rds_outer_loop (gid : string) all_rds acc :
  foldl (λ rds_instances rds,
           foldl (λ rds_instances membership,
                    if bool_decide (gid = vpc_group membership)
                    then rds_instances ++ [rds_id rds] else rds_instances)
                 rds_instances (vpc_security_groups rds)) acc all_rds
  = acc ++ (all_rds ≫= λ rds,
              (λ _, rds_id rds) <$>
                filter (λ m, gid = vpc_group m) (vpc_security_groups rds)).
Proof.
  revert acc. induction all_rds as [|rds all_rds IH]; intros acc; simpl.
  - by rewrite app_nil_r.
  - rewrite IH, rds_inner_loop. by rewrite <- app_assoc.
Qed.

Lemma get_rds_instances_run group w :
  get_rds_instances aws group w =
  match get_all_dbinstances aws w with
  | (inl raised, w') =>
      (inl (except_BotoServerError (λ e, fail_json (code_and_message e)) raised), w')
  | (inr all_rds, w') =>
      (inr (all_rds ≫= λ rds,
              (λ _, rds_id rds) <$>
                filter (λ m, id group = vpc_group m) (vpc_security_groups rds)),
       w')
  end.
Proof.
  unfold get_rds_instances. rewrite bind_run. unfold try_except.
  destruct (get_all_dbinstances aws w) as [[e|all_rds] w']; [done|].
  unfold mret, run_ret. by rewrite rds_outer_loop.
Qed.

Lemma get_network_interfaces_run group w :
  get_network_interfaces aws group w =
  match get_all_network_interfaces aws {[ "group-id" := id group ]} w with
  | (inl raised, w') =>
      (inl (except_BotoServerError (λ e, fail_json (code_and_message e)) raised), w')
  | (inr all_enis, w') => (inr (eni_id <$> all_enis), w')
  end.
Proof.
  unfold get_network_interfaces. rewrite bind_run. unfold try_except.
  destruct (get_all_network_interfaces aws _ w) as [[e|all_enis] w']; [done|].
  unfold mret, run_ret.
  by rewrite (foldl_append_chunks (λ eni, [eni_id eni])), bind_singleton.
Qed.

Lemma elb_loop (gid : string) all_elbs acc :
  foldl (λ associated_loadbalancers elb,
           if bool_decide (gid ∈ security_groups elb)
           then associated_loadbalancers ++ [elb_name elb]
           else associated_loadbalancers) acc all_elbs
  = acc ++ (elb_name <$> filter (λ elb, gid ∈ security_groups elb) all_elbs).
Proof.
  revert acc. induction all_elbs as [|elb all_elbs IH]; intros acc; simpl.
  - by rewrite app_nil_r.
  - rewrite IH, filter_cons. case_bool_decide; case_decide; try done.
    simpl. by rewrite <- app_assoc.
Qed.

Lemma get_associated_loadbalancers_run group w :
  get_associated_loadbalancers aws group w =
  match get_all_load_balancers aws w with
  | (inl raised, w') =>
      (inl (except_BotoServerError (λ e, fail_json (code_and_message e)) raised), w')
  | (inr all_elbs, w') =>
      (inr (elb_name <$> filter (λ elb, id group ∈ security_groups elb) all_elbs),
       w')
  end.
Proof.
  unfold get_associated_loadbalancers. rewrite bind_run. unfold try_except.
  destruct (get_all_load_balancers aws w) as [[e|all_elbs] w']; [done|].
  unfold mret, run_ret. by rewrite elb_loop.
Qed.

Lemma get_associated_instances_run group w :
  get_associated_instances aws group w =
  match instances aws group w with
  | (inl e, w') => (inl (unhandled e), w')
  | (inr associated_instances, w') =>
      (inr (instance_id <$> associated_instances), w')
  end.
Proof.
  unfold get_associated_instances. rewrite bind_run. unfold try_except.
  destruct (instances aws group w) as [[e|l] w']; [done|].
  unfold mret, run_ret.
  by rewrite (foldl_append_chunks (λ i, [instance_id i])), bind_singleton.
Qed.

Lemma requested_spec lookup kind :
  requested lookup kind = true ↔ kind ∈ lookup ∨ "all" ∈ lookup.
Proof.
  unfold requested. simpl. rewrite orb_false_r, orb_true_iff.
  by rewrite !bool_decide_eq_true.
Qed.

Lemma not_requested lookup kind :
  kind ∉ lookup → "all" ∉ lookup → requested lookup kind = false.
Proof.
  intros H1 H2. apply not_true_is_false. rewrite requested_spec. tauto.
Qed.

(** One kind of [get_group_info]: the lookup when requested, else []. *)
Local Abbreviation kind_step lookup kind lookup_kind :=
  (if requested lookup kind then lookup_kind else mret []).

(** A resolution that succeeds went through the four kinds in order. *)
Lemma get_group_info_inr lookup group w info w' :
  get_group_info aws lookup group w = (inr info, w') ↔
  ∃ ec2 elb eni rds w1 w2 w3,
    kind_step lookup "ec2" (get_associated_instances aws group) w = (inr ec2, w1) ∧
    kind_step lookup "elb" (get_associated_loadbalancers aws group) w1 = (inr elb, w2) ∧
    kind_step lookup "eni" (get_network_interfaces aws group) w2 = (inr eni, w3) ∧
    kind_step lookup "rds" (get_rds_instances aws group) w3 = (inr rds, w') ∧
    info = {| info_id := id group;
              info_name := name group;
              info_description := description group;
              info_vpc_id := vpc_id group;
              info_rules := get_group_rules (rules group);
              info_rules_egress := get_group_rules (rules_egress group);
              info_resources :=
                <[ "rds" := rds ]> (<[ "eni" := eni ]>
                  (<[ "elb" := elb ]> (<[ "ec2" := ec2 ]> ∅))) |}.
Proof.
  unfold get_group_info. split.
  - intros H.
    apply bind_inr in H as (ec2 & w1 & H1 & H).
    apply bind_inr in H as (elb & w2 & H2 & H).
    apply bind_inr in H as (eni & w3 & H3 & H).
    apply bind_inr in H as (rds & w4 & H4 & H).
    injection H as <- <-. by exists ec2, elb, eni, rds, w1, w2, w3.
  - intros (ec2 & elb & eni & rds & w1 & w2 & w3 & H1 & H2 & H3 & H4 & ->).
    rewrite (bind_step _ _ _ _ _ H1), (bind_step _ _ _ _ _ H2).
    rewrite (bind_step _ _ _ _ _ H3), (bind_step _ _ _ _ _ H4). done.
Qed.

(** C7: whenever the resolver produces its output, the resources dict has
    exactly the four keys [ec2], [elb], [eni], [rds], and a kind that the
    lookup spec names neither directly nor through [all] is mapped to the
    empty list. *)
Theorem unrequested_kinds_are_empty lookup group w info w' :
  get_group_info aws lookup group w = (inr info, w') →
  dom (info_resources info) = ({[ "ec2"; "elb"; "eni"; "rds" ]} : gset string) ∧
  ∀ kind, kind ∈ ["ec2"; "elb"; "eni"; "rds"] →
          kind ∉ lookup → "all" ∉ lookup →
          info_resources info !! kind = Some [].
Proof.
  intros H. apply get_group_info_inr in H
    as (ec2 & elb & eni & rds & w1 & w2 & w3 & H1 & H2 & H3 & H4 & ->).
  simpl. split.
  - rewrite !dom_insert_L, dom_empty_L. set_solver.
  - intros kind Hkind Hk Hall.
    pose proof (not_requested _ _ Hk Hall) as Hreq.
    repeat (apply elem_of_cons in Hkind as [->|Hkind]);
      [ rewrite Hreq in H1; injection H1 as <- _
      | rewrite Hreq in H2; injection H2 as <- _
      | rewrite Hreq in H3; injection H3 as <- _
      | rewrite Hreq in H4; injection H4 as <- _
      | by apply elem_of_nil in Hkind ];
      by simplify_map_eq.
Qed.

(** C8: a lookup spec that contains [all] resolves exactly like the
    explicit spec [ec2, elb, eni, rds]: same association set, same failure,
    same provider world afterwards. *)
Theorem all_is_the_four_kinds lookup group w :
  "all" ∈ lookup →
  get_group_info aws lookup group w =
  get_group_info aws ["ec2"; "elb"; "eni"; "rds"] group w.
Proof.
  intros Hall. unfold get_group_info.
  assert (∀ kind, requested lookup kind = true) as Hreq
    by (intros kind; apply requested_spec; by right).
  by rewrite !Hreq.
Qed.

(** At most one membership of a duplicate-free list references a group. *)
Lemma filter_nodup_membership (gid x : string) ms :
  NoDup (vpc_group <$> ms) →
  (λ _ : VPCSecurityGroupMembership, x) <$> filter (λ m, gid = vpc_group m) ms
  = if bool_decide (gid ∈ vpc_group <$> ms) then [x] else [].
Proof.
  induction ms as [|m ms IH]; csimpl; [done|].
  rewrite NoDup_cons. intros [Hm Hms]. rewrite filter_cons.
  destruct (decide (gid = vpc_group m)) as [->|Hne].
  - rewrite bool_decide_eq_true_2 by left. csimpl. f_equal.
    rewrite IH by done. by rewrite bool_decide_eq_false_2.
  - rewrite IH by done.
    rewrite (bool_decide_ext _ (gid ∈ vpc_group m :: (vpc_group <$> ms))); [done|].
    rewrite elem_of_cons. tauto.
Qed.

(** X20: when [rds] is requested and the resolver produces its output, the
    [rds] entry holds an instance identifier exactly when some VPC
    security-group membership of that instance references the group; the
    entry is built membership by membership, in the provider's order, and it
    is exactly one identifier per associated instance as soon as the
    memberships of each instance name distinct groups. *)
Theorem rds_component_characterised lookup group w info w' :
  get_group_info aws lookup group w = (inr info, w') →
  "rds" ∈ lookup ∨ "all" ∈ lookup →
  ∃ w3 all_rds rds_instances,
    get_all_dbinstances aws w3 = (inr all_rds, w') ∧
    info_resources info !! "rds" = Some rds_instances ∧
    (∀ x, x ∈ rds_instances ↔
          ∃ rds, rds ∈ all_rds ∧ rds_id rds = x ∧
                 id group ∈ vpc_group <$> vpc_security_groups rds) ∧
    rds_instances =
      (all_rds ≫= λ rds,
         (λ _, rds_id rds) <$>
           filter (λ m, id group = vpc_group m) (vpc_security_groups rds)) ∧
    ((∀ rds, rds ∈ all_rds → NoDup (vpc_group <$> vpc_security_groups rds)) →
     rds_instances =
       rds_id <$> filter (λ rds, id group ∈ vpc_group <$> vpc_security_groups rds)
                    all_rds).
Proof.
  intros H Hreq. apply requested_spec in Hreq.
  apply get_group_info_inr in H
    as (ec2 & elb & eni & rds & w1 & w2 & w3 & _ & _ & _ & H4 & ->).
  rewrite Hreq, get_rds_instances_run in H4.
  destruct (get_all_dbinstances aws w3) as [[e|all_rds] w4] eqn:Hcall; [done|].
  injection H4 as <- <-.
  exists w3, all_rds. eexists. split; [done|]. split; [by simplify_map_eq|].
  split; [|split; [done|]].
  - intros x. rewrite list_elem_of_bind. split.
    + intros (rds & Hx & Hrds). exists rds.
      apply list_elem_of_fmap in Hx as (m & -> & Hm).
      apply list_elem_of_filter in Hm as [Hm1 Hm2].
      split; [done|]. split; [done|]. apply list_elem_of_fmap. eauto.
    + intros (rds & Hrds & <- & Hin). exists rds. split; [|done].
      apply list_elem_of_fmap in Hin as (m & Hm1 & Hm2).
      apply list_elem_of_fmap. exists m. split; [done|].
      by apply list_elem_of_filter.
  - clear Hcall. induction all_rds as [|rds all_rds IH]; intros Hnd; [done|].
    csimpl. rewrite filter_cons.
    rewrite filter_nodup_membership by (apply Hnd; left).
    rewrite IH by (intros ? ?; apply Hnd; by right).
    case_bool_decide; case_decide; done.
Qed.

(** ** Failures *)

(** A failing kind stops the resolution of the group. *)
Lemma get_group_info_ec2_fails lookup group w e w1 :
  requested lookup "ec2" = true →
  instances aws group w = (inl e, w1) →
  get_group_info aws lookup group w = (inl (unhandled e), w1).
Proof.
  intros Hreq Hcall. unfold get_group_info. rewrite Hreq.
  apply bind_inl. by rewrite get_associated_instances_run, Hcall.
Qed.

Lemma get_group_info_elb_fails lookup group w e w1 :
  requested lookup "ec2" = false →
  requested lookup "elb" = true →
  get_all_load_balancers aws w = (inl (server_error e), w1) →
  get_group_info aws lookup group w = (inl (fail_json (code_and_message e)), w1).
Proof.
  intros Hno Hreq Hcall. unfold get_group_info. rewrite Hno, Hreq.
  rewrite bind_run. simpl. apply bind_inl.
  by rewrite get_associated_loadbalancers_run, Hcall.
Qed.

Lemma list_group_loop_app lookup before after acc w :
  list_group_loop aws lookup (before ++ after) acc w =
  match list_group_loop aws lookup before acc w with
  | (inl f, w1) => (inl f, w1)
  | (inr infos, w1) => list_group_loop aws lookup after infos w1
  end.
Proof.
  revert acc w. induction before as [|g before IH]; intros acc w; [done|].
  simpl. rewrite !bind_run.
  destruct (get_group_info aws lookup g w) as [[f|info] w1]; [done|]. apply IH.
Qed.

Lemma list_group_loop_length lookup groups acc w out w' :
  list_group_loop aws lookup groups acc w = (inr out, w') →
  length out = length acc + length groups.
Proof.
  revert acc w. induction groups as [|g groups IH]; intros acc w; simpl.
  - intros [= <- _]. lia.
  - intros H. apply bind_inr in H as (info & w1 & _ & H).
    apply IH in H. rewrite length_app in H. simpl in H. lia.
Qed.

(** C9: [list_group] emits all or nothing.  If the group listing fails the
    outcome is a failure; if the resolver fails for the group at any
    position, after the groups before it were resolved, the outcome is that
    failure and no list is emitted; and a list that is emitted has one
    record per listed group. *)
Theorem list_group_atomic filters lookup w :
  (∀ e w1,
     get_all_security_groups aws filters w = (inl e, w1) →
     list_group aws filters lookup w = (inl (fail_json (message e)), w1)) ∧
  (∀ before group after infos w1 w2 f w3,
     get_all_security_groups aws filters w = (inr (before ++ group :: after), w1) →
     list_group_loop aws lookup before [] w1 = (inr infos, w2) →
     get_group_info aws lookup group w2 = (inl f, w3) →
     list_group aws filters lookup w = (inl f, w3)) ∧
  (∀ out w',
     list_group aws filters lookup w = (inr out, w') →
     ∃ all_groups w1,
       get_all_security_groups aws filters w = (inr all_groups, w1) ∧
       length out = length all_groups).
Proof.
  unfold list_group. rewrite bind_run. unfold try_except.
  destruct (get_all_security_groups aws filters w) as [[e|all_groups] w1];
    (split; [|split]); try done.
  - by intros ? ? [= <- <-].
  - intros before group after infos w0 w2 f w3 [= -> <-] Hbefore Hgroup.
    rewrite list_group_loop_app, Hbefore. simpl.
    by rewrite bind_run, Hgroup.
  - intros out w' Hout. exists all_groups, w1. split; [done|].
    by apply list_group_loop_length in Hout.
Qed.
End resolver_facts.

(** ** The statements at concrete inventories *)

Import Ec2Demo.

Lemma unrequested_kinds_are_empty_witness :
  let info := info_of "sg-1" [] [] ["eni-1"] [] in
  get_group_info (aws healthy) ["eni"] (sg "sg-1") 0 = (inr info, 1) ∧
  dom (info_resources info) = ({[ "ec2"; "elb"; "eni"; "rds" ]} : gset string) ∧
  info_resources info !! "rds" = Some [].
Proof.
  intros info.
  assert (get_group_info (aws healthy) ["eni"] (sg "sg-1") 0 = (inr info, 1))
    as Hrun by (vm_compute; reflexivity).
  split; [exact Hrun|].
  destruct (unrequested_kinds_are_empty (aws healthy) ["eni"] (sg "sg-1") 0 info 1 Hrun)
    as [Hdom Hempty].
  split; [exact Hdom|].
  apply Hempty; [set_solver| |];
    intros H; repeat (apply elem_of_cons in H as [H|H]; [discriminate|]);
    by apply elem_of_nil in H.
Defined.

Lemma all_is_the_four_kinds_witness :
  get_group_info (aws healthy) ["all"] (sg "sg-1") 0 =
  get_group_info (aws healthy) ["ec2"; "elb"; "eni"; "rds"] (sg "sg-1") 0.
Proof.
  apply (all_is_the_four_kinds (aws healthy) ["all"] (sg "sg-1") 0).
  apply list_elem_of_here.
Defined.

Lemma rds_component_characterised_witness :
  let info := info_of "sg-2" [] [] [] ["orders-db"] in
  get_group_info (aws healthy) ["rds"] (sg "sg-2") 0 = (inr info, 1) ∧
  ("rds" ∈ ["rds"] ∨ "all" ∈ ["rds"]) ∧
  ∃ w3 all_rds rds_instances,
    get_all_dbinstances (aws healthy) w3 = (inr all_rds, 1) ∧
    info_resources info !! "rds" = Some rds_instances ∧
    (∀ x, x ∈ rds_instances ↔
          ∃ rds, rds ∈ all_rds ∧ rds_id rds = x ∧
                 id (sg "sg-2") ∈ vpc_group <$> vpc_security_groups rds) ∧
    rds_instances =
      (all_rds ≫= λ rds,
         (λ _, rds_id rds) <$>
           filter (λ m, id (sg "sg-2") = vpc_group m) (vpc_security_groups rds)) ∧
    ((∀ rds, rds ∈ all_rds → NoDup (vpc_group <$> vpc_security_groups rds)) →
     rds_instances =
       rds_id <$> filter (λ rds, id (sg "sg-2") ∈ vpc_group <$> vpc_security_groups rds)
                    all_rds).
Proof.
  intros info.
  assert (get_group_info (aws healthy) ["rds"] (sg "sg-2") 0 = (inr info, 1))
    as Hrun by (vm_compute; reflexivity).
  assert ("rds" ∈ ["rds"] ∨ "all" ∈ ["rds"]) as Hreq by (left; apply list_elem_of_here).
  split; [exact Hrun|]. split; [exact Hreq|].
  exact (rds_component_characterised (aws healthy) ["rds"] (sg "sg-2") 0 info 1 Hrun Hreq).
Defined.


Lemma list_group_atomic_witness :
  get_all_security_groups (aws (down_at "elb" 3)) None 0 =
    (inr ([sg "sg-1"; sg "sg-2"] ++ sg "sg-3" :: []), 1) ∧
  list_group_loop (aws (down_at "elb" 3)) ["elb"] [sg "sg-1"; sg "sg-2"] [] 1 =
    (inr [ info_of "sg-1" [] ["staging-web-elb01"] [] [];
           info_of "sg-2" [] ["staging-web-elb01"] [] [] ], 3) ∧
  get_group_info (aws (down_at "elb" 3)) ["elb"] (sg "sg-3") 3 =
    (inl (fail_json "AuthFailure: not authorized"), 4) ∧
  list_group (aws (down_at "elb" 3)) None ["elb"] 0 =
    (inl (fail_json "AuthFailure: not authorized"), 4).
Proof.
  assert (get_all_security_groups (aws (down_at "elb" 3)) None 0 =
            (inr ([sg "sg-1"; sg "sg-2"] ++ sg "sg-3" :: []), 1)) as Hlist
    by reflexivity.
  assert (list_group_loop (aws (down_at "elb" 3)) ["elb"] [sg "sg-1"; sg "sg-2"] [] 1 =
            (inr [ info_of "sg-1" [] ["staging-web-elb01"] [] [];
                   info_of "sg-2" [] ["staging-web-elb01"] [] [] ], 3)) as Hbefore
    by (vm_compute; reflexivity).
  assert (get_group_info (aws (down_at "elb" 3)) ["elb"] (sg "sg-3") 3 =
            (inl (fail_json "AuthFailure: not authorized"), 4)) as Hthird
    by (vm_compute; reflexivity).
  repeat (split; [assumption|]).
  exact (proj1 (proj2 (list_group_atomic (aws (down_at "elb" 3)) None ["elb"] 0))
           _ _ _ _ _ _ _ _ Hlist Hbefore Hthird).
Defined.

(** C1, at failing providers: when the instance listing of a requested
    [ec2] lookup fails, the provider exception escapes [list_group] instead
    of becoming a structured error; when the group listing fails, the
    structured error carries the exception's message without its error code;
    the [elb] lookup, like [eni] and [rds], reports code and message. *)
Theorem provider_error_surfacing :
  list_group (aws (down "ec2")) None ["ec2"] 0 = (inl (unhandled auth_failure), 2) ∧
  list_group (aws (down "groups")) None ["ec2"] 0 = (inl (fail_json "not authorized"), 1) ∧
  list_group (aws (down "elb")) None ["elb"] 0 =
    (inl (fail_json "AuthFailure: not authorized"), 2).
Proof. repeat split; vm_compute; reflexivity. Qed.

End Ec2GroupFactsSpec.

(** * Properties of iam_user_facts *)

Module IamUserFactsSpec.
Import IamUserFacts.

(** Keyword arguments of the list call under the default path, and of the
    calls made by name alone. *)
Local Abbreviation by_default_path :=
  (<[ "PathPrefix" := VStr "/" ]> (<[ "MaxItems" := VInt 1000 ]> (∅ : gmap string value))).
Local Abbreviation by_name name :=
  (<[ "UserName" := VStr name ]> (∅ : gmap string value)).

Lemma truthy_Some (s : string) : s ≠ "" → truthy (Some s) = true.
Proof. intros Hs. simpl. by rewrite bool_decide_eq_false_2. Qed.

Lemma filter_by_name (name : string) (users : list User) :
  filter (λ user, Some (UserName user) = Some name) users =
  filter (λ user, UserName user = name) users.
Proof. apply list_filter_iff. intros user. split; congruence. Qed.

Section lookup_facts.
Context {W : Type} (connection : Connection W).

(** With a non-empty path only the list call is made. *)
Lemma list_iam_users_with_path (name : option string) (p : string) w log :
  p ≠ "" →
  list_iam_users connection name (Some p) (w, log) =
  let kwargs := <[ "PathPrefix" := VStr p ]> (<[ "MaxItems" := VInt 1000 ]> ∅) in
  match list_users connection kwargs w with
  | (inl e, w') => (inl (provider_failure e), (w', log ++ [list_users_call kwargs]))
  | (inr users, w') =>
      (inr (camel_dict_to_snake_dict <$>
              (if truthy name
               then filter (λ user, Some (UserName user) = name) users
               else users)),
       (w', log ++ [list_users_call kwargs]))
  end.
Proof.
  intros Hp. unfold list_iam_users.
  rewrite (truthy_Some p Hp), andb_false_r. simpl.
  unfold mbind, run_bind, mret, run_ret, try_except, issue. simpl.
  by destruct (list_users connection _ w) as [[e|users] w'].
Qed.

(** With a name and an empty path the user is fetched by name first. *)
Lemma list_iam_users_without_path (name : string) w log :
  name ≠ "" →
  list_iam_users connection (Some name) (Some "") (w, log) =
  match get_user connection (by_name name) w with
  | (inl e, w1) =>
      (inl (provider_failure e), (w1, log ++ [get_user_call (by_name name)]))
  | (inr _, w1) =>
      match list_users connection (by_name name) w1 with
      | (inl e, w2) =>
          (inl (provider_failure e),
           (w2, log ++ [get_user_call (by_name name); list_users_call (by_name name)]))
      | (inr users, w2) =>
          (inr (camel_dict_to_snake_dict <$>
                  filter (λ user, UserName user = name) users),
           (w2, log ++ [get_user_call (by_name name); list_users_call (by_name name)]))
      end
  end.
Proof.
  intros Hname. unfold list_iam_users.
  rewrite (truthy_Some name Hname). simpl.
  unfold mbind, run_bind, mret, run_ret, try_except, issue. simpl.
  destruct (get_user connection _ w) as [[e|user] w1]; [done|].
  destruct (list_users connection _ w1) as [[e|users] w2];
    rewrite <- app_assoc; simpl; [done|].
  by rewrite filter_by_name.
Qed.

(** Through [main], a name with no path runs the list call alone. *)
Lemma main_name_only (name : string) w log :
  name ≠ "" →
  main connection true (Some name) None (w, log) =
    match list_users connection by_default_path w with
    | (inl e, w') =>
        (inl (provider_failure e), (w', log ++ [list_users_call by_default_path]))
    | (inr users, w') =>
        (inr (camel_dict_to_snake_dict <$>
                filter (λ user, UserName user = name) users),
         (w', log ++ [list_users_call by_default_path]))
    end.
Proof.
  intros Hname. unfold main. cbn [negb].
  rewrite list_iam_users_with_path by done. cbv zeta.
  destruct (list_users connection _ w) as [[e|users] w']; [done|].
  by rewrite (truthy_Some name Hname), filter_by_name.
Qed.

(** C2 (amended): for a non-empty name and no path given, the argument
    spec supplies the path "/" and no get-by-name call is issued: the run
    adds exactly one provider call to the log, the list call with that prefix
    and at most 1000 items; its failure ends the lookup through the exception
    handler, and the users it answers with are filtered to the exact name. *)
Theorem name_lookup_call_sequence (name : string) w log :
  name ≠ "" →
  main connection true (Some name) None (w, log) =
    match list_users connection by_default_path w with
    | (inl e, w') =>
        (inl (provider_failure e), (w', log ++ [list_users_call by_default_path]))
    | (inr users, w') =>
        (inr (camel_dict_to_snake_dict <$>
                filter (λ user, UserName user = name) users),
         (w', log ++ [list_users_call by_default_path]))
    end.
Proof. apply main_name_only. Qed.

Lemma filter_absent_name (name : string) (users : list User) :
  name ∉ UserName <$> users → filter (λ user, UserName user = name) users = [].
Proof.
  induction users as [|u users IH]; [done|]. csimpl.
  rewrite not_elem_of_cons. intros [Hne Hin].
  rewrite filter_cons. case_decide; [congruence|]. by apply IH.
Qed.

Lemma filter_unique_name (users : list User) (user : User) :
  NoDup (UserName <$> users) → user ∈ users →
  filter (λ u, UserName u = UserName user) users = [user].
Proof.
  induction users as [|u users IH]; csimpl; [by intros _ ?%elem_of_nil|].
  rewrite NoDup_cons. intros [Hu Hnd] Hin. rewrite filter_cons.
  apply elem_of_cons in Hin as [->|Hin].
  - case_decide; [|done]. f_equal. by apply filter_absent_name.
  - case_decide as Heq; [|by apply IH].
    exfalso. apply Hu. rewrite Heq. by apply list_elem_of_fmap_2.
Qed.

End lookup_facts.

Section name_only.
Context {W : Type}.

(** C3: for a non-empty name and no path, when the list call under the
    default path "/" answers with a user list, the result is exactly the
    listed users whose name equals the given name, in snake-case form; it
    is the same whatever the get-by-name call would answer; it is empty
    when no listed user has that name and, user names being unique in the
    listing, it is the single user of that name when there is one. *)
Theorem name_only_lookup_result (connection : Connection W)
    (name : string) w log users w' :
  name ≠ "" →
  list_users connection by_default_path w = (inr users, w') →
  let found := filter (λ user, UserName user = name) users in
  main connection true (Some name) None (w, log) =
    (inr (camel_dict_to_snake_dict <$> found),
     (w', log ++ [list_users_call by_default_path])) ∧
  (∀ get_user',
     main {| get_user := get_user'; list_users := list_users connection |}
          true (Some name) None (w, log) =
     main connection true (Some name) None (w, log)) ∧
  (name ∉ UserName <$> users → found = []) ∧
  (NoDup (UserName <$> users) →
   ∀ user, user ∈ users → UserName user = name → found = [user]).
Proof.
  intros Hname Hlist found. split; [|split; [|split]].
  - rewrite (main_name_only connection name w log Hname).
    by rewrite Hlist.
  - intros get_user'. unfold main. cbn [negb].
    rewrite !list_iam_users_with_path by done. reflexivity.
  - apply filter_absent_name.
  - intros Hnd user Hin <-. by apply filter_unique_name.
Qed.
End name_only.

(** ** The statements at a concrete client *)

Import IamDemo.

Lemma name_lookup_call_sequence_witness :
  "bob" ≠ "" ∧
  main (iam (inr bob)) true (Some "bob") None (tt, []) =
    (inr [camel_dict_to_snake_dict bob], (tt, [list_users_call by_default_path])) ∧
  main iam_throttled true (Some "bob") None (tt, []) =
    (inl (provider_failure (client_error throttled)),
     (tt, [list_users_call by_default_path])).
Proof.
  assert ("bob" ≠ "") as Hname by discriminate.
  split; [exact Hname|]. split.
  - rewrite (name_lookup_call_sequence (iam (inr bob)) "bob" tt [] Hname).
    vm_compute. reflexivity.
  - rewrite (name_lookup_call_sequence iam_throttled "bob" tt [] Hname).
    vm_compute. reflexivity.
Defined.

(** C2, as stated, at the lookup of "bob" with no path: the log of provider
    calls holds the list call alone, so no get-by-name call was issued, first
    or otherwise. *)
Lemma name_only_lookup_issues_no_get_user :
  (main (iam (inr bob)) true (Some "bob") None (tt, [])).2.2 =
    [list_users_call by_default_path] ∧
  ¬ ∃ kwargs,
      get_user_call kwargs ∈ (main (iam (inr bob)) true (Some "bob") None (tt, [])).2.2.
Proof.
  assert ((main (iam (inr bob)) true (Some "bob") None (tt, [])).2.2 =
            [list_users_call by_default_path]) as Hlog by (vm_compute; reflexivity).
  split; [exact Hlog|]. rewrite Hlog. intros [kwargs Hin].
  apply list_elem_of_singleton in Hin. discriminate.
Qed.

Lemma name_only_lookup_result_witness :
  "bob" ≠ "" ∧
  list_users (iam (inl no_such_entity)) by_default_path tt = (inr [alice; bob], tt) ∧
  main (iam (inl no_such_entity)) true (Some "bob") None (tt, []) =
    (inr [camel_dict_to_snake_dict bob], (tt, [list_users_call by_default_path])) ∧
  main (iam (inr bob)) true (Some "bob") None (tt, []) =
    main (iam (inl no_such_entity)) true (Some "bob") None (tt, []).
Proof.
  assert ("bob" ≠ "") as Hname by discriminate.
  assert (list_users (iam (inl no_such_entity)) by_default_path tt =
            (inr [alice; bob], tt)) as Hlist by reflexivity.
  split; [exact Hname|]. split; [exact Hlist|].
  destruct (name_only_lookup_result (iam (inl no_such_entity)) "bob" tt []
              [alice; bob] tt Hname Hlist) as (Hres & Hindep & _ & _).
  split.
  - rewrite Hres. vm_compute. reflexivity.
  - exact (Hindep (λ _ w, (inr bob, w))).
Defined.

End IamUserFactsSpec.

(** * Further properties of ec2_group_facts *)

Module Ec2GroupFactsMore.
Import Ec2GroupFacts Ec2GroupFactsSpec.

(** Membership of a tag in a list written out. *)
Ltac tag_listed :=
  repeat first [ apply list_elem_of_here | apply list_elem_of_further ].

(** ** The normalizer *)

Lemma elem_of_flatten_grants (gs : list GroupOrCIDR) (x : string) :
  x ∈ flatten_grants gs ↔
  ∃ g, g ∈ gs ∧ (group_id g = Some x ∨ (group_id g = None ∧ cidr_ip g = Some x)).
Proof.
  rewrite flatten_grants_omap, list_elem_of_omap. unfold flattened_grant.
  split; intros (g & Hg & H); exists g; (split; [done|]).
  - destruct (group_id g); [left; congruence | right; done].
  - destruct H as [->|[-> ->]]; done.
Qed.

(** X1: the grant strings of a rule record are drawn from the rule's grant
    entries and from nowhere else: a string is listed exactly when it is the
    group identifier of some entry, or the CIDR string of some entry that has
    no group identifier. *)
Theorem grant_strings_come_from_grants (PermissionList : list IPPermissions)
    (i : nat) (rule : IPPermissions) (x : string) :
  PermissionList !! i = Some rule →
  ∃ record,
    get_group_rules PermissionList !! i = Some record ∧
    (x ∈ perm_grants record ↔
     ∃ g, g ∈ grants rule ∧
          (group_id g = Some x ∨ (group_id g = None ∧ cidr_ip g = Some x))).
Proof.
  intros Hrule. rewrite get_group_rules_map, list_lookup_fmap, Hrule. simpl.
  eexists. split; [done|]. simpl.
  by rewrite <- flatten_grants_omap, elem_of_flatten_grants.
Qed.

Lemma flattened_grant_None (g : GroupOrCIDR) :
  flattened_grant g = None ↔ ¬ (group_id g ≠ None ∨ cidr_ip g ≠ None).
Proof.
  unfold flattened_grant. split.
  - intros H [Hg|Hc]; destruct (group_id g), (cidr_ip g); congruence.
  - intros H. destruct (group_id g); [destruct H; by left|].
    destruct (cidr_ip g); [destruct H; by right|done].
Qed.

Lemma length_flatten_grants (gs : list GroupOrCIDR) :
  (length (flatten_grants gs) ≤ length gs)%nat ∧
  (length (flatten_grants gs) = length gs ↔
   ∀ g, g ∈ gs → group_id g ≠ None ∨ cidr_ip g ≠ None).
Proof.
  rewrite flatten_grants_omap.
  induction gs as [|g gs [IHle IHeq]].
  - split; [done|]. split; [by intros _ ? ?%elem_of_nil|done].
  - assert (∀ P : GroupOrCIDR → Prop,
              (∀ g', g' ∈ g :: gs → P g') ↔ P g ∧ ∀ g', g' ∈ gs → P g') as Hall.
    { intros P. split.
      - intros H. split; [apply H; left|intros; apply H; by right].
      - intros [H1 H2] g' [->|?]%elem_of_cons; auto. }
    rewrite Hall, <- IHeq. clear Hall IHeq. csimpl.
    pose proof (flattened_grant_None g) as Hnone.
    destruct (flattened_grant g) as [x|]; csimpl.
    + split; [lia|].
      assert (group_id g ≠ None ∨ cidr_ip g ≠ None) as Hg.
      { destruct (decide (group_id g ≠ None ∨ cidr_ip g ≠ None)) as [|Hn]; [done|].
        apply Hnone in Hn. discriminate. }
      split; [intros [= ?]; done|intros [_ ->]; done].
    + split; [lia|]. split; [lia|]. intros [Hg _]. by apply Hnone in Hg.
Qed.

(** X2: a rule record never lists more grant strings than the rule has
    grant entries, and lists as many exactly when every entry carries a group
    identifier or a CIDR string. *)
Theorem grant_count_bounded (PermissionList : list IPPermissions)
    (i : nat) (rule : IPPermissions) :
  PermissionList !! i = Some rule →
  ∃ record,
    get_group_rules PermissionList !! i = Some record ∧
    (length (perm_grants record) ≤ length (grants rule))%nat ∧
    (length (perm_grants record) = length (grants rule) ↔
     ∀ g, g ∈ grants rule → group_id g ≠ None ∨ cidr_ip g ≠ None).
Proof.
  intros Hrule. rewrite get_group_rules_map, list_lookup_fmap, Hrule. simpl.
  eexists. split; [done|]. simpl. rewrite <- flatten_grants_omap.
  apply length_flatten_grants.
Qed.

(** X3: normalizing a concatenation of permission lists is concatenating
    their normalizations, so the ingress and egress lists of a group, or two
    halves of one list, can be normalized independently. *)
Theorem get_group_rules_app (l1 l2 : list IPPermissions) :
  get_group_rules (l1 ++ l2) = get_group_rules l1 ++ get_group_rules l2.
Proof. rewrite !get_group_rules_map. apply fmap_app. Qed.

(** ** The resolver *)

Section more_resolver_facts.
Context {W : Type} (aws : Provider W).

Lemma bind_inl_inv {S E A B} (m : run S E A) (k : A → run S E B) s e s2 :
  (m ≫= k) s = (inl e, s2) →
  m s = (inl e, s2) ∨ ∃ a s1, m s = (inr a, s1) ∧ k a s1 = (inl e, s2).
Proof.
  rewrite bind_run. destruct (m s) as [[e'|a] s1].
  - intros [= -> ->]. by left.
  - intros H. right. eauto.
Qed.

(** X4: when [elb] is requested and the resolver produces its output, the
    [elb] entry lists the names of the load balancers whose security-group
    list contains the group identifier, one name per such load balancer, in
    the order the provider returned them. *)
Theorem elb_component_characterised lookup group w info w' :
  get_group_info aws lookup group w = (inr info, w') →
  "elb" ∈ lookup ∨ "all" ∈ lookup →
  ∃ w1 w2 all_elbs,
    get_all_load_balancers aws w1 = (inr all_elbs, w2) ∧
    info_resources info !! "elb" =
      Some (elb_name <$> filter (λ elb, id group ∈ security_groups elb) all_elbs).
Proof.
  intros H Hreq. apply requested_spec in Hreq.
  apply get_group_info_inr in H
    as (ec2 & elb & eni & rds & w1 & w2 & w3 & _ & H2 & _ & _ & ->).
  rewrite Hreq, get_associated_loadbalancers_run in H2.
  destruct (get_all_load_balancers aws w1) as [[e|all_elbs] w2'] eqn:Hcall; [done|].
  injection H2 as <- <-. exists w1, w2', all_elbs. split; [done|].
  by simplify_map_eq.
Qed.

(** X5: when [eni] is requested and the resolver produces its output, the
    provider was asked for the network interfaces under the filter
    [group-id = the group's identifier], and the [eni] entry lists the
    identifier of every interface the provider returned, in that order, with
    no filtering on the client side. *)
Theorem eni_component_characterised lookup group w info w' :
  get_group_info aws lookup group w = (inr info, w') →
  "eni" ∈ lookup ∨ "all" ∈ lookup →
  ∃ w2 w3 all_enis,
    get_all_network_interfaces aws {[ "group-id" := id group ]} w2 =
      (inr all_enis, w3) ∧
    info_resources info !! "eni" = Some (eni_id <$> all_enis).
Proof.
  intros H Hreq. apply requested_spec in Hreq.
  apply get_group_info_inr in H
    as (ec2 & elb & eni & rds & w1 & w2 & w3 & _ & _ & H3 & _ & ->).
  rewrite Hreq, get_network_interfaces_run in H3.
  destruct (get_all_network_interfaces aws _ w2) as [[e|all_enis] w3'] eqn:Hcall;
    [done|].
  injection H3 as <- <-. exists w2, w3', all_enis. split; [done|].
  by simplify_map_eq.
Qed.

(** X6: when [ec2] is requested and the resolver produces its output, the
    instance listing of the group was the first provider call, and the [ec2]
    entry lists the identifier of every instance it returned, in that
    order. *)
Theorem ec2_component_characterised lookup group w info w' :
  get_group_info aws lookup group w = (inr info, w') →
  "ec2" ∈ lookup ∨ "all" ∈ lookup →
  ∃ w1 associated_instances,
    instances aws group w = (inr associated_instances, w1) ∧
    info_resources info !! "ec2" = Some (instance_id <$> associated_instances).
Proof.
  intros H Hreq. apply requested_spec in Hreq.
  apply get_group_info_inr in H
    as (ec2 & elb & eni & rds & w1 & w2 & w3 & H1 & _ & _ & _ & ->).
  rewrite Hreq, get_associated_instances_run in H1.
  destruct (instances aws group w) as [[e|l] w1'] eqn:Hcall; [done|].
  injection H1 as <- <-. exists w1', l. split; [done|].
  by simplify_map_eq.
Qed.

(** X7: with every kind requested, a resolution that produces its output
    made exactly four provider calls, once per kind and in the order [ec2],
    [elb], [eni], [rds], each starting from the world the previous one left. *)
Theorem all_kinds_call_order lookup group w info w' :
  get_group_info aws lookup group w = (inr info, w') →
  "all" ∈ lookup →
  ∃ associated_instances all_elbs all_enis all_rds w1 w2 w3,
    instances aws group w = (inr associated_instances, w1) ∧
    get_all_load_balancers aws w1 = (inr all_elbs, w2) ∧
    get_all_network_interfaces aws {[ "group-id" := id group ]} w2 =
      (inr all_enis, w3) ∧
    get_all_dbinstances aws w3 = (inr all_rds, w').
Proof.
  intros H Hall.
  assert (∀ kind, requested lookup kind = true) as Hreq
    by (intros kind; apply requested_spec; by right).
  apply get_group_info_inr in H
    as (ec2 & elb & eni & rds & w1 & w2 & w3 & H1 & H2 & H3 & H4 & _).
  rewrite Hreq in H1, H2, H3, H4.
  rewrite get_associated_instances_run in H1.
  rewrite get_associated_loadbalancers_run in H2.
  rewrite get_network_interfaces_run in H3.
  rewrite get_rds_instances_run in H4.
  destruct (instances aws group w) as [[?|l1] w1'] eqn:Hc1; [done|].
  destruct (get_all_load_balancers aws w1) as [[?|l2] w2'] eqn:Hc2; [done|].
  destruct (get_all_network_interfaces aws _ w2) as [[?|l3] w3'] eqn:Hc3; [done|].
  destruct (get_all_dbinstances aws w3) as [[?|l4] w4'] eqn:Hc4; [done|].
  injection H1 as _ ->. injection H2 as _ ->. injection H3 as _ ->.
  injection H4 as _ ->.
  by exists l1, l2, l3, l4, w1, w2, w3.
Qed.

(** X8: a resolution can fail in three ways only.  If it fails, then
    either [ec2] was requested and the instance listing of the group, the
    first call, raised the provider exception that escapes; or the [try]
    block of the load-balancer, network-interface or database listing of a
    requested kind raised: a provider exception, reported as the structured
    error "code: message", or a connection exception, which that block does
    not catch and which escapes.  In every case the world is the one the
    failing call left: no later call was made. *)
Theorem get_group_info_failure_cause lookup group w f w' :
  get_group_info aws lookup group w = (inl f, w') →
  (∃ e, f = unhandled e ∧ ("ec2" ∈ lookup ∨ "all" ∈ lookup) ∧
        instances aws group w = (inl e, w')) ∨
  (∃ raised w0,
     f = match raised with
         | server_error e => fail_json (code_and_message e)
         | connect_error e => unhandled_connect e
         end ∧
     ((("elb" ∈ lookup ∨ "all" ∈ lookup) ∧
       get_all_load_balancers aws w0 = (inl raised, w')) ∨
      (("eni" ∈ lookup ∨ "all" ∈ lookup) ∧
       get_all_network_interfaces aws {[ "group-id" := id group ]} w0 =
         (inl raised, w')) ∨
      (("rds" ∈ lookup ∨ "all" ∈ lookup) ∧
       get_all_dbinstances aws w0 = (inl raised, w')))).
Proof.
  unfold get_group_info. intros H.
  apply bind_inl_inv in H as [H|(ec2 & w1 & _ & H)].
  { left. destruct (requested lookup "ec2") eqn:Hreq; [|done].
    apply requested_spec in Hreq. rewrite get_associated_instances_run in H.
    destruct (instances aws group w) as [[e|l] w1]; [|done].
    injection H as <- <-. eauto. }
  right.
  apply bind_inl_inv in H as [H|(elb & w2 & _ & H)].
  { destruct (requested lookup "elb") eqn:Hreq; [|done].
    apply requested_spec in Hreq. rewrite get_associated_loadbalancers_run in H.
    destruct (get_all_load_balancers aws w1) as [[raised|l] w2] eqn:Hcall; [|done].
    injection H as <- <-. exists raised, w1. split; [by destruct raised|].
    left. by rewrite Hcall. }
  apply bind_inl_inv in H as [H|(eni & w3 & _ & H)].
  { destruct (requested lookup "eni") eqn:Hreq; [|done].
    apply requested_spec in Hreq. rewrite get_network_interfaces_run in H.
    destruct (get_all_network_interfaces aws _ w2) as [[raised|l] w3] eqn:Hcall;
      [|done].
    injection H as <- <-. exists raised, w2. split; [by destruct raised|].
    right; left. by rewrite Hcall. }
  apply bind_inl_inv in H as [H|(rds & w4 & _ & H)]; [|done].
  destruct (requested lookup "rds") eqn:Hreq; [|done].
  apply requested_spec in Hreq. rewrite get_rds_instances_run in H.
  destruct (get_all_dbinstances aws w3) as [[raised|l] w4] eqn:Hcall; [|done].
  injection H as <- <-. exists raised, w3. split; [by destruct raised|].
  right; right. by rewrite Hcall.
Qed.

(** The record of a group for which no kind is looked up. *)
Local Abbreviation plain_info group :=
  {| info_id := id group;
     info_name := name group;
     info_description := description group;
     info_vpc_id := vpc_id group;
     info_rules := get_group_rules (rules group);
     info_rules_egress := get_group_rules (rules_egress group);
     info_resources :=
       <[ "rds" := [] ]> (<[ "eni" := [] ]> (<[ "elb" := [] ]> (<[ "ec2" := [] ]> ∅))) |}.

Lemma nothing_requested lookup :
  (∀ kind, kind ∈ ["ec2"; "elb"; "eni"; "rds"; "all"] → kind ∉ lookup) →
  ∀ kind, kind ∈ ["ec2"; "elb"; "eni"; "rds"] → requested lookup kind = false.
Proof.
  intros Hnone kind Hkind. apply not_requested; apply Hnone; [|tag_listed].
  apply elem_of_app with (l1 := ["ec2"; "elb"; "eni"; "rds"]) (l2 := ["all"]).
  by left.
Qed.

Lemma no_requested_kind_no_call_aux lookup group w :
  (∀ kind, kind ∈ ["ec2"; "elb"; "eni"; "rds"; "all"] → kind ∉ lookup) →
  get_group_info aws lookup group w = (inr (plain_info group), w).
Proof.
  intros Hnone. pose proof (nothing_requested lookup Hnone) as Hreq.
  unfold get_group_info.
  rewrite (Hreq "ec2"), (Hreq "elb"), (Hreq "eni"), (Hreq "rds") by tag_listed.
  reflexivity.
Qed.

(** X9: a lookup spec that names none of [ec2], [elb], [eni], [rds], [all]
    (the empty spec, or unknown tags only) makes the resolver succeed without
    any provider call: the world is untouched, the group's own fields are
    copied, its rules normalized, and the four kinds map to the empty list. *)
Theorem no_requested_kind_no_call lookup group w :
  (∀ kind, kind ∈ ["ec2"; "elb"; "eni"; "rds"; "all"] → kind ∉ lookup) →
  get_group_info aws lookup group w = (inr (plain_info group), w).
Proof. apply no_requested_kind_no_call_aux. Qed.

Lemma requested_ext lookup1 lookup2 kind :
  (kind ∈ lookup1 ↔ kind ∈ lookup2) → ("all" ∈ lookup1 ↔ "all" ∈ lookup2) →
  requested lookup1 kind = requested lookup2 kind.
Proof.
  intros Hk Hall. apply eq_true_iff_eq. rewrite !requested_spec. tauto.
Qed.

Lemma get_group_info_ext lookup1 lookup2 group w :
  (∀ kind, kind ∈ ["ec2"; "elb"; "eni"; "rds"; "all"] →
           (kind ∈ lookup1 ↔ kind ∈ lookup2)) →
  get_group_info aws lookup1 group w = get_group_info aws lookup2 group w.
Proof.
  intros Hsame. unfold get_group_info.
  by rewrite (requested_ext lookup1 lookup2 "ec2"),
             (requested_ext lookup1 lookup2 "elb"),
             (requested_ext lookup1 lookup2 "eni"),
             (requested_ext lookup1 lookup2 "rds")
    by (apply Hsame; tag_listed).
Qed.

Lemma list_group_loop_ext lookup1 lookup2 groups acc w :
  (∀ group w, get_group_info aws lookup1 group w = get_group_info aws lookup2 group w) →
  list_group_loop aws lookup1 groups acc w = list_group_loop aws lookup2 groups acc w.
Proof.
  intros Hsame. revert acc w.
  induction groups as [|g groups IH]; intros acc w; [done|].
  simpl. rewrite !bind_run, Hsame.
  destruct (get_group_info aws lookup2 g w) as [[f|info] w1]; [done|]. apply IH.
Qed.

(** X10: the lookup spec is read as a set of the five tags.  Two specs that
    agree on which of [ec2], [elb], [eni], [rds], [all] they contain (whatever
    the order, the repetitions and the other tags in them) give the same
    resolution of every group and the same outcome of [list_group]. *)
Theorem lookup_read_as_a_set lookup1 lookup2 filters w :
  (∀ kind, kind ∈ ["ec2"; "elb"; "eni"; "rds"; "all"] →
           (kind ∈ lookup1 ↔ kind ∈ lookup2)) →
  (∀ group w0,
     get_group_info aws lookup1 group w0 = get_group_info aws lookup2 group w0) ∧
  list_group aws filters lookup1 w = list_group aws filters lookup2 w.
Proof.
  intros Hsame.
  assert (∀ group w0, get_group_info aws lookup1 group w0 =
                      get_group_info aws lookup2 group w0) as Hinfo
    by (intros; by apply get_group_info_ext).
  split; [done|]. unfold list_group. rewrite !bind_run.
  destruct (try_except _ _ w) as [[f|all_groups] w1]; [done|].
  by apply list_group_loop_ext.
Qed.

(** What a record takes from its group, whatever was looked up. *)
Local Abbreviation describes info group :=
  (info_id info = id group ∧ info_name info = name group ∧
   info_description info = description group ∧ info_vpc_id info = vpc_id group ∧
   info_rules info = get_group_rules (rules group) ∧
   info_rules_egress info = get_group_rules (rules_egress group)).

Lemma list_group_loop_order lookup groups acc w out w' :
  list_group_loop aws lookup groups acc w = (inr out, w') →
  ∃ rest, out = acc ++ rest ∧ Forall2 (λ info group, describes info group) rest groups.
Proof.
  revert acc w. induction groups as [|g groups IH]; intros acc w; simpl.
  - intros [= <- _]. exists []. by rewrite app_nil_r.
  - intros H. apply bind_inr in H as (info & w1 & Hinfo & H).
    apply IH in H as (rest & -> & Hrest). exists (info :: rest).
    split; [by rewrite <- app_assoc|]. constructor; [|done].
    apply get_group_info_inr in Hinfo as (? & ? & ? & ? & ? & ? & ? & _ & _ & _ & _ & ->).
    done.
Qed.

(** X11: the list [list_group] emits follows the provider's group listing
    position by position: as many records as groups, and the record at each
    position carries the identifier, name, description and VPC identifier of
    the group at that position, with its ingress and egress rules
    normalized. *)
Theorem list_group_keeps_group_order filters lookup w out w' :
  list_group aws filters lookup w = (inr out, w') →
  ∃ all_groups w1,
    get_all_security_groups aws filters w = (inr all_groups, w1) ∧
    Forall2 (λ info group, describes info group) out all_groups.
Proof.
  unfold list_group. rewrite bind_run. unfold try_except.
  destruct (get_all_security_groups aws filters w) as [[e|all_groups] w1]; [done|].
  intros H. exists all_groups, w1. split; [done|].
  by apply list_group_loop_order in H as (rest & -> & Hrest).
Qed.

Lemma list_group_loop_plain lookup groups acc w :
  (∀ kind, kind ∈ ["ec2"; "elb"; "eni"; "rds"; "all"] → kind ∉ lookup) →
  list_group_loop aws lookup groups acc w =
  (inr (acc ++ ((λ group, plain_info group) <$> groups)), w).
Proof.
  intros Hnone. revert acc. induction groups as [|g groups IH]; intros acc; simpl.
  - by rewrite app_nil_r.
  - rewrite bind_run, no_requested_kind_no_call_aux by done.
    rewrite IH. by rewrite <- app_assoc.
Qed.
End more_resolver_facts.

(** ** main *)

Section main_facts.
Context {W : Type}.

(** X12: when the playbook gives no [lookup], and boto, the region and the
    connection are in place, [main] makes the group listing its only provider
    call: a failed listing is reported with the exception's message, and a
    listing that succeeds yields one record per group, in order, with the
    group's fields, its normalized rules and four empty resource lists. *)
Theorem main_without_lookup (region : option string)
    (connect_to_aws : option string → ConnectError + Provider W)
    (connection : Provider W) (filters : option (gmap string string)) (w : W) :
  truthy region = true →
  connect_to_aws region = inr connection →
  main true region connect_to_aws filters None w =
  match get_all_security_groups connection filters w with
  | (inl e, w1) => (inl (fail_json (message e)), w1)
  | (inr all_groups, w1) =>
      (inr ((λ group,
               {| info_id := id group;
                  info_name := name group;
                  info_description := description group;
                  info_vpc_id := vpc_id group;
                  info_rules := get_group_rules (rules group);
                  info_rules_egress := get_group_rules (rules_egress group);
                  info_resources :=
                    <[ "rds" := [] ]> (<[ "eni" := [] ]>
                      (<[ "elb" := [] ]> (<[ "ec2" := [] ]> ∅))) |})
              <$> all_groups), w1)
  end.
Proof.
  intros Hregion Hconnect. unfold main. cbn [negb].
  rewrite Hregion, Hconnect. unfold list_group. rewrite bind_run.
  unfold try_except.
  destruct (get_all_security_groups connection filters w) as [[e|all_groups] w1];
    [done|].
  rewrite list_group_loop_plain; [done|].
  intros kind _ Hin. by apply elem_of_nil in Hin.
Qed.

(** X13: [main] reaches the provider only with boto present, a non-empty
    region and an established connection.  Without boto it fails with
    "boto required for this module", whatever the region; with boto and no
    region it fails with "region must be specified" without trying to
    connect; when connecting raises, the handler's own message cannot be
    built, so no structured error is produced and an [AttributeError]
    escapes.  In each case the provider world is left as it was. *)
Theorem main_configuration_errors (region : option string)
    (connect_to_aws : option string → ConnectError + Provider W)
    (filters : option (gmap string string)) (lookup : option (list string))
    (w : W) :
  main false region connect_to_aws filters lookup w =
    (inl (fail_json "boto required for this module"), w) ∧
  (truthy region = false →
   main true region connect_to_aws filters lookup w =
     (inl (fail_json "region must be specified"), w)) ∧
  (∀ e, truthy region = true → connect_to_aws region = inl e →
        main true region connect_to_aws filters lookup w =
          (inl (attribute_error e), w) ∧
        ∀ msg, main true region connect_to_aws filters lookup w ≠
                 (inl (fail_json msg), w)).
Proof.
  unfold main. cbn [negb]. split; [done|]. split.
  - by intros ->.
  - intros e -> ->. split; [done|]. intros msg. discriminate.
Qed.
End main_facts.

(** ** The statements at concrete inventories *)

Import Ec2Demo.

Lemma grant_strings_come_from_grants_witness :
  [full_rule; mixed_rule] !! 1 = Some mixed_rule ∧
  ∃ record,
    get_group_rules [full_rule; mixed_rule] !! 1 = Some record ∧
    ("sg-29c9c44f" ∈ perm_grants record ↔
     ∃ g, g ∈ grants mixed_rule ∧
          (group_id g = Some "sg-29c9c44f" ∨
           (group_id g = None ∧ cidr_ip g = Some "sg-29c9c44f"))).
Proof.
  split; [reflexivity|].
  apply (grant_strings_come_from_grants [full_rule; mixed_rule] 1 mixed_rule
           "sg-29c9c44f").
  reflexivity.
Defined.

Lemma grant_count_bounded_witness :
  [full_rule; mixed_rule] !! 1 = Some mixed_rule ∧
  ∃ record,
    get_group_rules [full_rule; mixed_rule] !! 1 = Some record ∧
    (length (perm_grants record) ≤ length (grants mixed_rule))%nat ∧
    (length (perm_grants record) = length (grants mixed_rule) ↔
     ∀ g, g ∈ grants mixed_rule → group_id g ≠ None ∨ cidr_ip g ≠ None).
Proof.
  split; [reflexivity|].
  apply (grant_count_bounded [full_rule; mixed_rule] 1 mixed_rule).
  reflexivity.
Defined.

Lemma elb_component_characterised_witness :
  get_group_info (aws healthy) ["elb"] (sg "sg-1") 0 =
    (inr (info_of "sg-1" [] ["staging-web-elb01"] [] []), 1) ∧
  ("elb" ∈ ["elb"] ∨ "all" ∈ ["elb"]) ∧
  ∃ w1 w2 all_elbs,
    get_all_load_balancers (aws healthy) w1 = (inr all_elbs, w2) ∧
    info_resources (info_of "sg-1" [] ["staging-web-elb01"] [] []) !! "elb" =
      Some (elb_name <$>
              filter (λ elb, id (sg "sg-1") ∈ security_groups elb) all_elbs).
Proof.
  assert (get_group_info (aws healthy) ["elb"] (sg "sg-1") 0 =
            (inr (info_of "sg-1" [] ["staging-web-elb01"] [] []), 1)) as Hrun
    by (vm_compute; reflexivity).
  assert ("elb" ∈ ["elb"] ∨ "all" ∈ ["elb"]) as Hreq by (left; tag_listed).
  split; [exact Hrun|]. split; [exact Hreq|].
  exact (elb_component_characterised (aws healthy) ["elb"] (sg "sg-1") 0 _ 1 Hrun Hreq).
Defined.

Lemma eni_component_characterised_witness :
  get_group_info (aws healthy) ["eni"] (sg "sg-1") 0 =
    (inr (info_of "sg-1" [] [] ["eni-1"] []), 1) ∧
  ("eni" ∈ ["eni"] ∨ "all" ∈ ["eni"]) ∧
  ∃ w2 w3 all_enis,
    get_all_network_interfaces (aws healthy) {[ "group-id" := id (sg "sg-1") ]} w2 =
      (inr all_enis, w3) ∧
    info_resources (info_of "sg-1" [] [] ["eni-1"] []) !! "eni" =
      Some (eni_id <$> all_enis).
Proof.
  assert (get_group_info (aws healthy) ["eni"] (sg "sg-1") 0 =
            (inr (info_of "sg-1" [] [] ["eni-1"] []), 1)) as Hrun
    by (vm_compute; reflexivity).
  assert ("eni" ∈ ["eni"] ∨ "all" ∈ ["eni"]) as Hreq by (left; tag_listed).
  split; [exact Hrun|]. split; [exact Hreq|].
  exact (eni_component_characterised (aws healthy) ["eni"] (sg "sg-1") 0 _ 1 Hrun Hreq).
Defined.

Lemma ec2_component_characterised_witness :
  get_group_info (aws healthy) ["ec2"] (sg "sg-1") 0 =
    (inr (info_of "sg-1" ["i-52a644e3"; "i-12df34be"] [] [] []), 1) ∧
  ("ec2" ∈ ["ec2"] ∨ "all" ∈ ["ec2"]) ∧
  ∃ w1 associated_instances,
    instances (aws healthy) (sg "sg-1") 0 = (inr associated_instances, w1) ∧
    info_resources (info_of "sg-1" ["i-52a644e3"; "i-12df34be"] [] [] []) !! "ec2" =
      Some (instance_id <$> associated_instances).
Proof.
  assert (get_group_info (aws healthy) ["ec2"] (sg "sg-1") 0 =
            (inr (info_of "sg-1" ["i-52a644e3"; "i-12df34be"] [] [] []), 1)) as Hrun
    by (vm_compute; reflexivity).
  assert ("ec2" ∈ ["ec2"] ∨ "all" ∈ ["ec2"]) as Hreq by (left; tag_listed).
  split; [exact Hrun|]. split; [exact Hreq|].
  exact (ec2_component_characterised (aws healthy) ["ec2"] (sg "sg-1") 0 _ 1 Hrun Hreq).
Defined.

Lemma all_kinds_call_order_witness :
  get_group_info (aws healthy) ["all"] (sg "sg-1") 0 =
    (inr (info_of "sg-1" ["i-52a644e3"; "i-12df34be"] ["staging-web-elb01"]
            ["eni-1"] ["test-rds-mysql"; "test-rds-mysql"]), 4) ∧
  "all" ∈ ["all"] ∧
  ∃ associated_instances all_elbs all_enis all_rds w1 w2 w3,
    instances (aws healthy) (sg "sg-1") 0 = (inr associated_instances, w1) ∧
    get_all_load_balancers (aws healthy) w1 = (inr all_elbs, w2) ∧
    get_all_network_interfaces (aws healthy) {[ "group-id" := id (sg "sg-1") ]} w2 =
      (inr all_enis, w3) ∧
    get_all_dbinstances (aws healthy) w3 = (inr all_rds, 4).
Proof.
  assert (get_group_info (aws healthy) ["all"] (sg "sg-1") 0 =
            (inr (info_of "sg-1" ["i-52a644e3"; "i-12df34be"] ["staging-web-elb01"]
                    ["eni-1"] ["test-rds-mysql"; "test-rds-mysql"]), 4)) as Hrun
    by (vm_compute; reflexivity).
  assert ("all" ∈ ["all"]) as Hall by tag_listed.
  split; [exact Hrun|]. split; [exact Hall|].
  exact (all_kinds_call_order (aws healthy) ["all"] (sg "sg-1") 0 _ 4 Hrun Hall).
Defined.

Lemma get_group_info_failure_cause_witness :
  get_group_info (aws_raising (connect_error no_credentials) (down "eni"))
    ["elb"; "eni"] (sg "sg-1") 0 =
    (inl (unhandled_connect no_credentials), 2) ∧
  ((∃ e, unhandled_connect no_credentials = unhandled e ∧
         ("ec2" ∈ ["elb"; "eni"] ∨ "all" ∈ ["elb"; "eni"]) ∧
         instances (aws_raising (connect_error no_credentials) (down "eni"))
           (sg "sg-1") 0 = (inl e, 2)) ∨
   (∃ raised w0,
      unhandled_connect no_credentials =
        match raised with
        | server_error e => fail_json (code_and_message e)
        | connect_error e => unhandled_connect e
        end ∧
      ((("elb" ∈ ["elb"; "eni"] ∨ "all" ∈ ["elb"; "eni"]) ∧
        get_all_load_balancers
          (aws_raising (connect_error no_credentials) (down "eni")) w0 =
          (inl raised, 2)) ∨
       (("eni" ∈ ["elb"; "eni"] ∨ "all" ∈ ["elb"; "eni"]) ∧
        get_all_network_interfaces
          (aws_raising (connect_error no_credentials) (down "eni"))
          {[ "group-id" := id (sg "sg-1") ]} w0 = (inl raised, 2)) ∨
       (("rds" ∈ ["elb"; "eni"] ∨ "all" ∈ ["elb"; "eni"]) ∧
        get_all_dbinstances
          (aws_raising (connect_error no_credentials) (down "eni")) w0 =
          (inl raised, 2))))).
Proof.
  assert (get_group_info (aws_raising (connect_error no_credentials) (down "eni"))
            ["elb"; "eni"] (sg "sg-1") 0 =
            (inl (unhandled_connect no_credentials), 2)) as Hrun
    by (vm_compute; reflexivity).
  split; [exact Hrun|].
  exact (get_group_info_failure_cause
           (aws_raising (connect_error no_credentials) (down "eni"))
           ["elb"; "eni"] (sg "sg-1") 0 _ 2 Hrun).
Defined.

Lemma unknown_tag_only kind :
  kind ∈ ["ec2"; "elb"; "eni"; "rds"; "all"] → kind ∉ ["s3"].
Proof.
  intros Hkind Hin. apply list_elem_of_singleton in Hin as ->.
  repeat (apply elem_of_cons in Hkind as [Hkind|Hkind]; [discriminate|]).
  by apply elem_of_nil in Hkind.
Defined.

Lemma no_requested_kind_no_call_witness :
  (∀ kind, kind ∈ ["ec2"; "elb"; "eni"; "rds"; "all"] → kind ∉ ["s3"]) ∧
  get_group_info (aws (down "rds")) ["s3"] (sg "sg-1") 7 =
    (inr (info_of "sg-1" [] [] [] []), 7).
Proof.
  split; [exact unknown_tag_only|].
  exact (no_requested_kind_no_call (aws (down "rds")) ["s3"] (sg "sg-1") 7
           unknown_tag_only).
Defined.

Lemma same_tags kind :
  kind ∈ ["ec2"; "elb"; "eni"; "rds"; "all"] →
  (kind ∈ ["eni"; "s3"; "ec2"; "eni"] ↔ kind ∈ ["ec2"; "eni"]).
Proof.
  intros Hkind.
  repeat (apply elem_of_cons in Hkind as [->|Hkind]);
    [..|by apply elem_of_nil in Hkind]; compute_done.
Defined.

Lemma lookup_read_as_a_set_witness :
  (∀ kind, kind ∈ ["ec2"; "elb"; "eni"; "rds"; "all"] →
           (kind ∈ ["eni"; "s3"; "ec2"; "eni"] ↔ kind ∈ ["ec2"; "eni"])) ∧
  list_group (aws healthy) None ["eni"; "s3"; "ec2"; "eni"] 0 =
  list_group (aws healthy) None ["ec2"; "eni"] 0.
Proof.
  split; [exact same_tags|].
  exact (proj2 (lookup_read_as_a_set (aws healthy) ["eni"; "s3"; "ec2"; "eni"]
                  ["ec2"; "eni"] None 0 same_tags)).
Defined.

Lemma list_group_keeps_group_order_witness :
  list_group (aws healthy) None ["eni"] 0 =
    (inr [ info_of "sg-1" [] [] ["eni-1"] [];
           info_of "sg-2" [] [] [] [];
           info_of "sg-3" [] [] [] [] ], 4) ∧
  ∃ all_groups w1,
    get_all_security_groups (aws healthy) None 0 = (inr all_groups, w1) ∧
    Forall2 (λ info group,
               info_id info = id group ∧ info_name info = name group ∧
               info_description info = description group ∧
               info_vpc_id info = vpc_id group ∧
               info_rules info = get_group_rules (rules group) ∧
               info_rules_egress info = get_group_rules (rules_egress group))
      [ info_of "sg-1" [] [] ["eni-1"] [];
        info_of "sg-2" [] [] [] [];
        info_of "sg-3" [] [] [] [] ] all_groups.
Proof.
  assert (list_group (aws healthy) None ["eni"] 0 =
            (inr [ info_of "sg-1" [] [] ["eni-1"] [];
                   info_of "sg-2" [] [] [] [];
                   info_of "sg-3" [] [] [] [] ], 4)) as Hrun
    by (vm_compute; reflexivity).
  split; [exact Hrun|].
  exact (list_group_keeps_group_order (aws healthy) None ["eni"] 0 _ 4 Hrun).
Defined.

Lemma main_without_lookup_witness :
  truthy (Some "eu-west-1") = true ∧
  connected healthy (Some "eu-west-1") = inr (aws healthy) ∧
  main true (Some "eu-west-1") (connected healthy) None None 0 =
    (inr [ info_of "sg-1" [] [] [] [];
           info_of "sg-2" [] [] [] [];
           info_of "sg-3" [] [] [] [] ], 1).
Proof.
  assert (truthy (Some "eu-west-1") = true) as Hregion by reflexivity.
  assert (connected healthy (Some "eu-west-1") = inr (aws healthy)) as Hconnect
    by reflexivity.
  split; [exact Hregion|]. split; [exact Hconnect|].
  rewrite (main_without_lookup (Some "eu-west-1") (connected healthy) (aws healthy)
             None 0 Hregion Hconnect).
  vm_compute. reflexivity.
Defined.

Lemma main_configuration_errors_witness :
  truthy (Some "") = false ∧
  main true (Some "") (connected healthy) None (Some ["all"]) 0 =
    (inl (fail_json "region must be specified"), 0) ∧
  truthy (Some "eu-west-1") = true ∧
  refused (Some "eu-west-1") = inl no_credentials ∧
  main true (Some "eu-west-1") refused None (Some ["all"]) 0 =
    (inl (attribute_error no_credentials), 0).
Proof.
  assert (truthy (Some "") = false) as Hempty by reflexivity.
  assert (truthy (Some "eu-west-1") = true) as Hregion by reflexivity.
  assert (refused (Some "eu-west-1") = inl no_credentials) as Hrefused
    by reflexivity.
  split; [exact Hempty|].
  split.
  - exact (proj1 (proj2 (main_configuration_errors (Some "") (connected healthy)
                           None (Some ["all"]) 0)) Hempty).
  - split; [exact Hregion|]. split; [exact Hrefused|].
    exact (proj1 (proj2 (proj2 (main_configuration_errors (Some "eu-west-1") refused
                                  None (Some ["all"]) 0)) _ Hregion Hrefused)).
Defined.

End Ec2GroupFactsMore.

(** * Further properties of iam_user_facts *)

Module IamUserFactsMore.
Import IamUserFacts IamUserFactsSpec.

(** Keyword arguments of the list call under a path prefix. *)
Local Abbreviation under_path p :=
  (<[ "PathPrefix" := VStr p ]> (<[ "MaxItems" := VInt 1000 ]> (∅ : gmap string value))).
Local Abbreviation by_name name :=
  (<[ "UserName" := VStr name ]> (∅ : gmap string value)).

(** The path [main] hands to [list_iam_users]. *)
Local Abbreviation effective_path path :=
  (match path with Some p => p | None => "/" end).

Lemma truthy_true (s : option string) :
  truthy s = true ↔ ∃ n, s = Some n ∧ n ≠ "".
Proof.
  destruct s as [n|]; simpl; [|split; [done|by intros (? & ? & _)]].
  rewrite negb_true_iff, bool_decide_eq_false. split.
  - intros Hn. by exists n.
  - by intros (? & [= <-] & ?).
Qed.

Lemma truthy_false (s : option string) :
  truthy s = false ↔ s = None ∨ s = Some "".
Proof.
  destruct s as [n|]; simpl; [|split; [by left|done]].
  rewrite negb_false_iff, bool_decide_eq_true. split.
  - intros ->. by right.
  - by intros [|[= ->]].
Qed.

Section more_lookup_facts.
Context {W : Type} (connection : Connection W).

(** Through [main], every path but the empty string runs the list call
    alone. *)
Lemma main_with_path (name path : option string) w log :
  path ≠ Some "" →
  main connection true name path (w, log) =
  match list_users connection (under_path (effective_path path)) w with
  | (inl e, w') =>
      (inl (provider_failure e),
       (w', log ++ [list_users_call (under_path (effective_path path))]))
  | (inr users, w') =>
      (inr (camel_dict_to_snake_dict <$>
              (if truthy name
               then filter (λ user, Some (UserName user) = name) users
               else users)),
       (w', log ++ [list_users_call (under_path (effective_path path))]))
  end.
Proof.
  intros Hpath. unfold main. cbn [negb].
  destruct path as [p|].
  - rewrite list_iam_users_with_path by congruence. reflexivity.
  - rewrite list_iam_users_with_path by done. reflexivity.
Qed.

(** With neither a name nor a path, the list call carries no keyword
    argument. *)
Lemma list_iam_users_bare (name path : option string) w log :
  truthy name = false → truthy path = false →
  list_iam_users connection name path (w, log) =
  match list_users connection ∅ w with
  | (inl e, w') => (inl (provider_failure e), (w', log ++ [list_users_call ∅]))
  | (inr users, w') =>
      (inr (camel_dict_to_snake_dict <$> users), (w', log ++ [list_users_call ∅]))
  end.
Proof.
  intros Hname Hpath. unfold list_iam_users. rewrite Hname, Hpath. simpl.
  unfold mbind, run_bind, mret, run_ret, try_except, issue. simpl.
  by destruct (list_users connection ∅ w) as [[e|users] w'].
Qed.

(** X14: whenever the path is omitted or is not the empty string, [main]
    issues exactly one provider call, whatever the name: a [list_users] call
    carrying that path as [PathPrefix] ("/" when omitted) and [MaxItems] 1000,
    made in the initial world.  [get_user] is not called. *)
Theorem one_list_call_under_a_path (name path : option string) w log :
  path ≠ Some "" →
  (main connection true name path (w, log)).2.2 =
    log ++ [list_users_call (under_path (effective_path path))] ∧
  (main connection true name path (w, log)).2.1 =
    (list_users connection (under_path (effective_path path)) w).2.
Proof.
  intros Hpath. rewrite main_with_path by done.
  by destruct (list_users connection _ w) as [[e|users] w'].
Qed.

(** X15: a name that is absent or the empty string filters nothing: when
    the path is omitted or non-empty and the list call answers, the result is
    every listed user, in the listed order. *)
Theorem lookup_without_name (name path : option string) w log users w' :
  name = None ∨ name = Some "" →
  path ≠ Some "" →
  list_users connection (under_path (effective_path path)) w = (inr users, w') →
  main connection true name path (w, log) =
    (inr (camel_dict_to_snake_dict <$> users),
     (w', log ++ [list_users_call (under_path (effective_path path))])).
Proof.
  intros Hname%truthy_false Hpath Hlist.
  by rewrite main_with_path, Hlist, Hname.
Qed.



(** X18: [main] never issues more than two provider calls and keeps the
    calls logged before it; it issues none when boto3 is missing, and a
    [get_user] call appears among them only for a non-empty name together
    with an empty path. *)
Theorem provider_calls_bounded (HAS_BOTO3 : bool) (name path : option string)
    w log :
  ∃ calls,
    (main connection HAS_BOTO3 name path (w, log)).2.2 = log ++ calls ∧
    (length calls ≤ 2)%nat ∧
    (HAS_BOTO3 = false → calls = []) ∧
    (∀ kwargs, get_user_call kwargs ∈ calls →
               truthy name = true ∧ path = Some "").
Proof.
  assert (∀ kwargs c, get_user_call kwargs ∈ [list_users_call c] →
                      truthy name = true ∧ path = Some "") as Hlist_only.
  { intros kwargs c Hin. apply list_elem_of_singleton in Hin. discriminate. }
  destruct HAS_BOTO3.
  2:{ exists []. unfold main. simpl. rewrite app_nil_r.
      split; [done|]. split; [lia|]. split; [done|].
      by intros ? ?%elem_of_nil. }
  destruct (decide (path = Some "")) as [->|Hpath].
  - destruct (truthy name) eqn:Hname.
    + apply truthy_true in Hname as (n & -> & Hn).
      unfold main. cbn [negb]. rewrite list_iam_users_without_path by done.
      destruct (get_user connection _ w) as [[e|user] w1];
        [|destruct (list_users connection _ w1) as [[e|users] w2]];
        (eexists; split; [done|]; simpl; split; [lia|]; split; [done|];
         intros _ _; done).
    + unfold main. cbn [negb].
      rewrite list_iam_users_bare by done.
      destruct (list_users connection ∅ w) as [[e|users] w1];
        (eexists; split; [done|]; simpl; split; [lia|]; split; [done|];
         intros kwargs; apply Hlist_only).
  - rewrite main_with_path by done.
    destruct (list_users connection _ w) as [[e|users] w1];
      (eexists; split; [done|]; simpl; split; [lia|]; split; [done|];
       intros kwargs; apply Hlist_only).
Qed.

(** With a name and a falsy path the user is fetched by name first. *)
Lemma list_iam_users_name_first (name : string) (path : option string) w log :
  name ≠ "" → truthy path = false →
  list_iam_users connection (Some name) path (w, log) =
  match get_user connection (by_name name) w with
  | (inl e, w1) =>
      (inl (provider_failure e), (w1, log ++ [get_user_call (by_name name)]))
  | (inr _, w1) =>
      match list_users connection (by_name name) w1 with
      | (inl e, w2) =>
          (inl (provider_failure e),
           (w2, log ++ [get_user_call (by_name name); list_users_call (by_name name)]))
      | (inr users, w2) =>
          (inr (camel_dict_to_snake_dict <$>
                  filter (λ user, UserName user = name) users),
           (w2, log ++ [get_user_call (by_name name); list_users_call (by_name name)]))
      end
  end.
Proof.
  intros Hname Hpath. unfold list_iam_users.
  rewrite (truthy_Some name Hname), Hpath. simpl.
  unfold mbind, run_bind, mret, run_ret, try_except, issue. simpl.
  destruct (get_user connection _ w) as [[e|user] w1]; [done|].
  destruct (list_users connection _ w1) as [[e|users] w2];
    rewrite <- app_assoc; simpl; [done|].
  by rewrite filter_by_name.
Qed.

(** X19: [list_iam_users] fails only through an exception of the provider,
    raised by the last call it made, [get_user] or [list_users]; nothing is
    called after a failed call.  For a [ClientError] the failure is
    [fail_json] with the exception's message and the snake-case form of its
    response; for a [ParamValidationError] the handler itself breaks and an
    [AttributeError] escapes, with no [fail_json]. *)
Theorem failure_is_a_provider_error (name path : option string) w log f s' :
  list_iam_users connection name path (w, log) = (inl f, s') →
  ∃ raised kwargs w0,
    ((get_user connection kwargs w0 = (inl raised, s'.1) ∧
      last s'.2 = Some (get_user_call kwargs)) ∨
     (list_users connection kwargs w0 = (inl raised, s'.1) ∧
      last s'.2 = Some (list_users_call kwargs))) ∧
    f = match raised with
        | client_error e =>
            fail_json (message e) (Some (camel_dict_to_snake_dict (response e)))
        | param_validation_error e => attribute_error e
        end.
Proof.
  destruct (truthy path) eqn:Hpath.
  - apply truthy_true in Hpath as (p & -> & Hp).
    rewrite list_iam_users_with_path by done. cbv zeta.
    destruct (list_users connection _ w) as [[e|users] w1] eqn:Hlist; [|done].
    intros [= <- <-]. eexists e, _, w. split; [|done]. right.
    split; [done|]. simpl. by rewrite last_snoc.
  - destruct (truthy name) eqn:Hname.
    + apply truthy_true in Hname as (n & -> & Hn).
      rewrite list_iam_users_name_first by done.
      destruct (get_user connection _ w) as [[e|user] w1] eqn:Hget.
      { intros [= <- <-]. exists e, (by_name n), w. split; [|done]. left.
        split; [done|]. simpl. by rewrite last_snoc. }
      destruct (list_users connection _ w1) as [[e|users] w2] eqn:Hlist; [|done].
      intros [= <- <-]. exists e, (by_name n), w1. split; [|done]. right.
      split; [done|]. simpl. by rewrite last_app.
    + rewrite list_iam_users_bare by done.
      destruct (list_users connection ∅ w) as [[e|users] w1] eqn:Hlist; [|done].
      intros [= <- <-]. exists e, ∅, w. split; [|done]. right.
      split; [done|]. simpl. by rewrite last_snoc.
Qed.
End more_lookup_facts.

(** ** The statements at a concrete client *)

Import IamDemo.

Lemma one_list_call_under_a_path_witness :
  Some "/dev/" ≠ Some "" ∧
  (main (iam (inr bob)) true (Some "bob") (Some "/dev/") (tt, [])).2.2 =
    [] ++ [list_users_call (under_path "/dev/")] ∧
  (main (iam (inr bob)) true (Some "bob") (Some "/dev/") (tt, [])).2.1 =
    (list_users (iam (inr bob)) (under_path "/dev/") tt).2.
Proof.
  assert (Some "/dev/" ≠ Some "") as Hpath by discriminate.
  split; [exact Hpath|].
  exact (one_list_call_under_a_path (iam (inr bob)) (Some "bob") (Some "/dev/")
           tt [] Hpath).
Defined.

Lemma lookup_without_name_witness :
  (Some "" = None ∨ Some "" = Some "") ∧
  (None : option string) ≠ Some "" ∧
  list_users (iam (inr bob)) (under_path "/") tt = (inr [alice; bob], tt) ∧
  main (iam (inr bob)) true (Some "") None (tt, []) =
    (inr (camel_dict_to_snake_dict <$> [alice; bob]),
     (tt, [] ++ [list_users_call (under_path "/")])).
Proof.
  assert (Some "" = None ∨ Some "" = Some "") as Hname by (by right).
  assert ((None : option string) ≠ Some "") as Hpath by discriminate.
  assert (list_users (iam (inr bob)) (under_path "/") tt = (inr [alice; bob], tt))
    as Hlist by reflexivity.
  split; [exact Hname|]. split; [exact Hpath|]. split; [exact Hlist|].
  exact (lookup_without_name (iam (inr bob)) (Some "") None tt [] [alice; bob] tt
           Hname Hpath Hlist).
Defined.



Lemma provider_calls_bounded_witness :
  ∃ calls,
    (main (iam (inr bob)) false (Some "bob") (Some "") (tt, [])).2.2 = [] ++ calls ∧
    (length calls ≤ 2)%nat ∧
    calls = [].
Proof.
  destruct (provider_calls_bounded (iam (inr bob)) false (Some "bob") (Some "") tt [])
    as (calls & Hlog & Hlen & Hnone & _).
  exists calls. split; [exact Hlog|]. split; [exact Hlen|]. exact (Hnone eq_refl).
Defined.

Lemma failure_is_a_provider_error_witness :
  list_iam_users iam_validating (Some "bob") (Some "") (tt, []) =
    (inl (attribute_error unknown_parameter),
     (tt, [get_user_call (by_name "bob"); list_users_call (by_name "bob")])) ∧
  ∃ raised kwargs w0,
    ((get_user iam_validating kwargs w0 = (inl raised, tt) ∧
      last [get_user_call (by_name "bob"); list_users_call (by_name "bob")] =
        Some (get_user_call kwargs)) ∨
     (list_users iam_validating kwargs w0 = (inl raised, tt) ∧
      last [get_user_call (by_name "bob"); list_users_call (by_name "bob")] =
        Some (list_users_call kwargs))) ∧
    attribute_error unknown_parameter =
      match raised with
      | client_error e =>
          fail_json (message e) (Some (camel_dict_to_snake_dict (response e)))
      | param_validation_error e => attribute_error e
      end.
Proof.
  assert (list_iam_users iam_validating (Some "bob") (Some "") (tt, []) =
            (inl (attribute_error unknown_parameter),
             (tt, [get_user_call (by_name "bob"); list_users_call (by_name "bob")])))
    as Hrun by (vm_compute; reflexivity).
  split; [exact Hrun|].
  exact (failure_is_a_provider_error iam_validating (Some "bob") (Some "") tt [] _ _
           Hrun).
Defined.

End IamUserFactsMore.
